(** * Merit-order production plan calculator

    A shallow embedding of [application/calculator.py] and of the parts of
    [application/models.py] it relies on, together with the properties of
    the allocation algorithm.

    Numbers: Python floats are idealised as exact rationals ([Q]).
    [round(x, 1)] is rounding to the nearest tenth, ties to even.
    The allocation dictionary is an insertion-ordered association list
    with unique keys, as a Python [dict] is. *)

From Stdlib Require Import QArith Qround Qabs Qminmax Lqa Lia ZArith.
From Stdlib Require Import List String Bool Sorted Permutation.
From Stdlib Require Import Morphisms Setoid.
Import ListNotations.

Open Scope Q_scope.

(** ** Numbers *)

Definition Qltb (x y : Q) : bool := negb (Qle_bool y x).

(** Nearest integer, ties to the even neighbour. *)
Definition round_half_even (x : Q) : Z :=
  let f := Qfloor x in
  let r := x - inject_Z f in
  if Qltb r (1 # 2) then f
  else if Qltb (1 # 2) r then (f + 1)%Z
  else if Z.even f then f else (f + 1)%Z.

(** Python's [round(x, 1)]. *)
Definition round1 (x : Q) : Q := Qred (inject_Z (round_half_even (x * 10)) / 10).

(** The values [round1] produces. *)
Definition is_tenth (x : Q) : Prop := exists n : Z, x == inject_Z n / 10.

(** Python's [sum]: left to right, starting from 0. *)
Definition sum (l : list Q) : Q := fold_left Qplus l 0.

(** ** Exceptions and results *)

Inductive exception : Type :=
| UnknownPowerPlantType (t : string)
    (* ValueError("Unknown power plant type: ...") *)
| CannotMeetLoad (required allocated : Q)
    (* ValueError("Cannot meet load requirement. Required: ..., Allocated: ...") *)
| ZeroDivisionError
| KeyError (k : string)
| ValidationError (field : string).

Inductive result (A : Type) : Type :=
| Ok (a : A)
| Raise (e : exception).

Arguments Ok {A} a.
Arguments Raise {A} e.

Definition bind {A B : Type} (r : result A) (k : A -> result B) : result B :=
  match r with
  | Ok a => k a
  | Raise e => Raise e
  end.

Notation "x <- r ;; k" := (bind r (fun x => k))
  (at level 61, r at next level, right associativity).

(** A [for] loop whose body may raise, building a list with [append]. *)
Fixpoint for_each {A B : Type} (f : A -> result B) (l : list A) : result (list B) :=
  match l with
  | [] => Ok []
  | a :: l' => b <- f a ;; bs <- for_each f l' ;; Ok (b :: bs)
  end.

(** Python float division. *)
Definition truediv (x y : Q) : result Q :=
  if Qeq_bool y 0 then Raise ZeroDivisionError else Ok (x / y).

(** ** The allocation dictionary *)

Module Dict.

Definition t : Type := list (string * Q).

Definition empty : t := [].

Fixpoint get (d : t) (k : string) : option Q :=
  match d with
  | [] => None
  | (k', v) :: d' => if String.eqb k' k then Some v else get d' k
  end.

(** [d.get(k, default)] *)
Definition get_default (d : t) (k : string) (default : Q) : Q :=
  match get d k with
  | Some v => v
  | None => default
  end.

(** [d[k]] *)
Definition getitem (d : t) (k : string) : result Q :=
  match get d k with
  | Some v => Ok v
  | None => Raise (KeyError k)
  end.

(** [d[k] = v]: an existing key keeps its position, a new one goes last. *)
Fixpoint set (d : t) (k : string) (v : Q) : t :=
  match d with
  | [] => [(k, v)]
  | (k', v') :: d' =>
      if String.eqb k' k then (k', v) :: d' else (k', v') :: set d' k v
  end.

Definition keys (d : t) : list string := map fst d.

Definition values (d : t) : list Q := map snd d.

End Dict.

(** ** Data model ([models.py]) *)

(** [PowerPlantType] is a [str] enumeration: its members are strings. *)
Definition GASFIRED : string := "gasfired".
Definition TURBOJET : string := "turbojet".
Definition WINDTURBINE : string := "windturbine".

Record Fuels : Type := mkFuels {
  gas_euro_per_mwh : Q;
  kerosine_euro_per_mwh : Q;
  co2_euro_per_ton : Q;
  wind_percentage : Q
}.

Record PowerPlant : Type := mkPowerPlant {
  name : string;
  type : string;
  efficiency : Q;
  pmin : Q;
  pmax : Q
}.

Record ProductionPlanRequest : Type := mkProductionPlanRequest {
  request_load : Q;
  request_fuels : Fuels;
  request_powerplants : list PowerPlant
}.

Record PowerPlantOutput : Type := mkPowerPlantOutput {
  output_name : string;
  p : Q
}.

(** Construction of a [PowerPlantOutput]: the field constraint [ge=0],
    then the validator, which rounds to one decimal. *)
Definition new_PowerPlantOutput (n : string) (power : Q) : result PowerPlantOutput :=
  if Qle_bool 0 power then Ok (mkPowerPlantOutput n (round1 power))
  else Raise (ValidationError "p").

(** The constraints pydantic enforces when a request is built. *)
Definition is_PowerPlantType (t : string) : Prop :=
  t = GASFIRED \/ t = TURBOJET \/ t = WINDTURBINE.

Definition valid_Fuels (f : Fuels) : Prop :=
  0 <= wind_percentage f <= 100.

Definition valid_PowerPlant (pl : PowerPlant) : Prop :=
  is_PowerPlantType (type pl) /\
  0 < efficiency pl <= 1 /\
  0 <= pmin pl /\
  0 < pmax pl /\
  pmin pl <= pmax pl.

Definition valid_ProductionPlanRequest (r : ProductionPlanRequest) : Prop :=
  0 < request_load r /\
  valid_Fuels (request_fuels r) /\
  Forall valid_PowerPlant (request_powerplants r) /\
  request_powerplants r <> [].

(** ** The calculator ([calculator.py]) *)

Definition CO2_EMISSIONS_PER_MWH : Q := 0.3.

Record PowerPlantWithCost : Type := mkPowerPlantWithCost {
  plant : PowerPlant;
  cost_per_mwh : Q;
  actual_pmax : Q
}.

Record ProductionPlanCalculator : Type := mkProductionPlanCalculator {
  load : Q;
  fuels : Fuels;
  powerplants : list PowerPlant
}.

(** [ProductionPlanCalculator.__init__] *)
Definition init (request : ProductionPlanRequest) : ProductionPlanCalculator :=
  mkProductionPlanCalculator
    (request_load request) (request_fuels request) (request_powerplants request).

Definition calculate_cost_per_mwh
    (self : ProductionPlanCalculator) (plant : PowerPlant) : result Q :=
  if String.eqb (type plant) WINDTURBINE then Ok 0
  else
    fuel_cost <-
      (if String.eqb (type plant) GASFIRED then Ok (gas_euro_per_mwh (fuels self))
       else if String.eqb (type plant) TURBOJET then Ok (kerosine_euro_per_mwh (fuels self))
       else Raise (UnknownPowerPlantType (type plant))) ;;
    cost <- truediv fuel_cost (efficiency plant) ;;
    co2_cost <-
      truediv (co2_euro_per_ton (fuels self) * CO2_EMISSIONS_PER_MWH) (efficiency plant) ;;
    Ok (cost + co2_cost).

Definition get_actual_pmax (self : ProductionPlanCalculator) (plant : PowerPlant) : Q :=
  if String.eqb (type plant) WINDTURBINE
  then pmax plant * (wind_percentage (fuels self) / 100)
  else pmax plant.

(** *** Merit order: [plants_with_cost.sort(key=lambda p: (p.cost_per_mwh, -p.actual_pmax))] *)

Definition sort_key (pwc : PowerPlantWithCost) : Q * Q :=
  (cost_per_mwh pwc, - actual_pmax pwc).

(** Python's [<] on pairs: the first components decide unless they are equal. *)
Definition tuple_lt (a b : Q * Q) : bool :=
  if Qeq_bool (fst a) (fst b) then Qltb (snd a) (snd b) else Qltb (fst a) (fst b).

(** [list.sort] is stable and only asks whether one key is smaller than
    another; a stable insertion sort gives the same list. *)
Fixpoint insert (x : PowerPlantWithCost) (l : list PowerPlantWithCost)
    : list PowerPlantWithCost :=
  match l with
  | [] => [x]
  | y :: l' =>
      if tuple_lt (sort_key y) (sort_key x) then y :: insert x l' else x :: y :: l'
  end.

Fixpoint sort (l : list PowerPlantWithCost) : list PowerPlantWithCost :=
  match l with
  | [] => []
  | x :: l' => insert x (sort l')
  end.

(** *** First pass *)

(** Body of the first [for] loop of [_allocate_power]; the state is the
    dictionary and [remaining_load]. *)
Definition allocate_step (st : Dict.t * Q) (pwc : PowerPlantWithCost) : Dict.t * Q :=
  let '(allocation, remaining_load) := st in
  if Qle_bool remaining_load 0.1 then
    (Dict.set allocation (name (plant pwc)) 0, remaining_load)
  else
    let available_power := Qmin (actual_pmax pwc) remaining_load in
    if Qle_bool (pmin (plant pwc)) available_power then
      let allocated := round1 available_power in
      (Dict.set allocation (name (plant pwc)) allocated, remaining_load - allocated)
    else
      (Dict.set allocation (name (plant pwc)) 0, remaining_load).

Definition first_pass (self : ProductionPlanCalculator)
    (plants_with_cost : list PowerPlantWithCost) : Dict.t * Q :=
  fold_left allocate_step plants_with_cost (Dict.empty, load self).

(** *** Second pass *)

(** The [for] loop of [_adjust_allocation] over the plants still to visit. *)
Fixpoint adjust_loop (l : list PowerPlantWithCost)
    (allocation : Dict.t) (remaining_load : Q) : result Dict.t :=
  match l with
  | [] => Ok allocation
  | pwc :: l' =>
      if Qle_bool (Qabs remaining_load) 0.1 then Ok allocation
      else
        current <- Dict.getitem allocation (name (plant pwc)) ;;
        if Qltb 0 remaining_load then
          if Qltb 0 current && Qltb current (actual_pmax pwc) then
            let increase := Qmin (actual_pmax pwc - current) remaining_load in
            adjust_loop l'
              (Dict.set allocation (name (plant pwc)) (round1 (current + increase)))
              (remaining_load - increase)
          else if Qeq_bool current 0 && Qle_bool (pmin (plant pwc)) remaining_load then
            let new_allocation := Qmin remaining_load (actual_pmax pwc) in
            adjust_loop l'
              (Dict.set allocation (name (plant pwc)) (round1 new_allocation))
              (remaining_load - new_allocation)
          else adjust_loop l' allocation remaining_load
        else adjust_loop l' allocation remaining_load
  end.

Definition _adjust_allocation (self : ProductionPlanCalculator)
    (plants_with_cost : list PowerPlantWithCost)
    (allocation : Dict.t) (remaining_load : Q) : result Dict.t :=
  adjust_loop (rev plants_with_cost) allocation remaining_load.

(** *** Allocation and validation *)

Definition _allocate_power (self : ProductionPlanCalculator)
    (plants_with_cost : list PowerPlantWithCost) : result Dict.t :=
  let '(allocation, remaining_load) := first_pass self plants_with_cost in
  allocation <-
    (if Qltb 0.1 (Qabs remaining_load)
     then _adjust_allocation self plants_with_cost allocation remaining_load
     else Ok allocation) ;;
  let total_allocated := sum (Dict.values allocation) in
  if Qltb 0.1 (Qabs (total_allocated - load self))
  then Raise (CannotMeetLoad (load self) total_allocated)
  else Ok allocation.

Definition with_cost (self : ProductionPlanCalculator) (plant : PowerPlant)
    : result PowerPlantWithCost :=
  cost <- calculate_cost_per_mwh self plant ;;
  Ok (mkPowerPlantWithCost plant cost (get_actual_pmax self plant)).

Definition response_entry (allocation : Dict.t) (plant : PowerPlant)
    : result PowerPlantOutput :=
  let power := Dict.get_default allocation (name plant) 0 in
  new_PowerPlantOutput (name plant) (round1 power).

Definition calculate_production_plan (self : ProductionPlanCalculator)
    : result (list PowerPlantOutput) :=
  plants_with_cost <- for_each (with_cost self) (powerplants self) ;;
  let plants_with_cost := sort plants_with_cost in
  allocation <- _allocate_power self plants_with_cost ;;
  for_each (response_entry allocation) (powerplants self).

(** ** The scenarios of [tests/test_calculator.py] *)

Module Tests.

Definition simple_wind_only : ProductionPlanRequest :=
  mkProductionPlanRequest 100 (mkFuels 10 50 20 100)
    [mkPowerPlant "wind1" WINDTURBINE 1 0 100].

Definition merit_order_gas_vs_turbojet : ProductionPlanRequest :=
  mkProductionPlanRequest 100 (mkFuels 13.4 50.8 20 0)
    [mkPowerPlant "gas1" GASFIRED 0.53 0 100;
     mkPowerPlant "tj1" TURBOJET 0.3 0 100].

Definition wind_has_priority : ProductionPlanRequest :=
  mkProductionPlanRequest 50 (mkFuels 13.4 50.8 20 50)
    [mkPowerPlant "wind1" WINDTURBINE 1 0 100;
     mkPowerPlant "gas1" GASFIRED 0.53 0 100].

Definition payload3 : ProductionPlanRequest :=
  mkProductionPlanRequest 910 (mkFuels 13.4 50.8 20 60)
    [mkPowerPlant "gasfiredbig1" GASFIRED 0.53 100 460;
     mkPowerPlant "gasfiredbig2" GASFIRED 0.53 100 460;
     mkPowerPlant "gasfiredsomewhatsmaller" GASFIRED 0.37 40 210;
     mkPowerPlant "tj1" TURBOJET 0.3 0 16;
     mkPowerPlant "windpark1" WINDTURBINE 1 0 150;
     mkPowerPlant "windpark2" WINDTURBINE 1 0 36].

End Tests.


(** ** Views on the calculator used in the statements *)

(** The ranked list that [calculate_production_plan] hands to
    [_allocate_power]. *)
Definition merit_order (self : ProductionPlanCalculator)
    : result (list PowerPlantWithCost) :=
  plants_with_cost <- for_each (with_cost self) (powerplants self) ;;
  Ok (sort plants_with_cost).

(** The allocation [_allocate_power] holds when it reaches its final check. *)
Definition allocation_passes (self : ProductionPlanCalculator)
    (plants_with_cost : list PowerPlantWithCost) : result Dict.t :=
  let '(allocation, remaining_load) := first_pass self plants_with_cost in
  if Qltb 0.1 (Qabs remaining_load)
  then _adjust_allocation self plants_with_cost allocation remaining_load
  else Ok allocation.

(** The final check of [_allocate_power]. *)
Definition check_total (self : ProductionPlanCalculator) (allocation : Dict.t)
    : result Dict.t :=
  let total_allocated := sum (Dict.values allocation) in
  if Qltb 0.1 (Qabs (total_allocated - load self))
  then Raise (CannotMeetLoad (load self) total_allocated)
  else Ok allocation.

(** ** Specification-side definitions *)

(** Merit order: cheaper first, and among equally cheap plants the larger
    effective maximum first. *)
Definition merit_le (a b : PowerPlantWithCost) : Prop :=
  cost_per_mwh a < cost_per_mwh b \/
  (cost_per_mwh a == cost_per_mwh b /\ actual_pmax b <= actual_pmax a).

(** Two plants the ranking cannot tell apart. *)
Definition same_rank (a b : PowerPlantWithCost) : bool :=
  Qeq_bool (cost_per_mwh a) (cost_per_mwh b) &&
  Qeq_bool (actual_pmax a) (actual_pmax b).

(** The first pass as the specification words it: a walk over the ranked
    plants carrying the allocation and the remaining load. *)
Inductive greedy_walk :
    list PowerPlantWithCost -> Dict.t -> Q -> Dict.t -> Q -> Prop :=
| greedy_done a r :
    greedy_walk [] a r a r
| greedy_idle pwc l a r a' r' :
    r <= 0.1 ->
    greedy_walk l (Dict.set a (name (plant pwc)) 0) r a' r' ->
    greedy_walk (pwc :: l) a r a' r'
| greedy_assign pwc l a r a' r' :
    0.1 < r ->
    pmin (plant pwc) <= Qmin (actual_pmax pwc) r ->
    greedy_walk l
      (Dict.set a (name (plant pwc)) (round1 (Qmin (actual_pmax pwc) r)))
      (r - round1 (Qmin (actual_pmax pwc) r)) a' r' ->
    greedy_walk (pwc :: l) a r a' r'
| greedy_skip pwc l a r a' r' :
    0.1 < r ->
    Qmin (actual_pmax pwc) r < pmin (plant pwc) ->
    greedy_walk l (Dict.set a (name (plant pwc)) 0) r a' r' ->
    greedy_walk (pwc :: l) a r a' r'.

(** The second pass as the specification words it, over the plants in the
    order they are visited.  [rnd] is what is done to a value before it is
    stored: the identity in the specification's wording, [round1] in the
    calculator. *)
Fixpoint adjust_walk (rnd : Q -> Q) (l : list PowerPlantWithCost)
    (allocation : Dict.t) (remaining_load : Q) : Dict.t :=
  match l with
  | [] => allocation
  | pwc :: l' =>
      if Qltb 0.1 (Qabs remaining_load) && Qltb 0 remaining_load then
        match Dict.get allocation (name (plant pwc)) with
        | Some current =>
            if Qltb 0 current && Qltb current (actual_pmax pwc) then
              let increase := Qmin (actual_pmax pwc - current) remaining_load in
              adjust_walk rnd l'
                (Dict.set allocation (name (plant pwc)) (rnd (current + increase)))
                (remaining_load - increase)
            else if Qeq_bool current 0 && Qle_bool (pmin (plant pwc)) remaining_load then
              let start := Qmin remaining_load (actual_pmax pwc) in
              adjust_walk rnd l'
                (Dict.set allocation (name (plant pwc)) (rnd start))
                (remaining_load - start)
            else adjust_walk rnd l' allocation remaining_load
        | None => adjust_walk rnd l' allocation remaining_load
        end
      else allocation
  end.

(** An output within a plant's operating range, or zero. *)
Definition in_bounds (lo hi v : Q) : Prop :=
  v == 0 \/ lo <= v <= hi.

(** An output that is zero or the rounding of a value within the range. *)
Definition in_bounds_rounded (lo hi v : Q) : Prop :=
  v == 0 \/ exists a, lo <= a <= hi /\ v == round1 a.

Definition is_wind (plant : PowerPlant) : bool :=
  String.eqb (type plant) WINDTURBINE.

Definition total_wind_capacity (self : ProductionPlanCalculator) : Q :=
  sum (map (get_actual_pmax self) (filter is_wind (powerplants self))).

(** A dispatch, one output per plant in request order, that respects every
    plant's range and meets the load exactly. *)
Definition feasible_dispatch (self : ProductionPlanCalculator)
    (outputs : list Q) : Prop :=
  Forall2 (fun plant v => in_bounds (pmin plant) (get_actual_pmax self plant) v)
    (powerplants self) outputs /\
  sum outputs == load self.

(** A property of every value the dictionary holds. *)
Definition all_values (P : Q -> Prop) (a : Dict.t) : Prop :=
  forall k v, Dict.get a k = Some v -> P v.

(** Values [round(_, 1)] leaves as they are. *)
Definition rounded (v : Q) : Prop := round1 v = v.

(** A plant with its cost and effective maximum, as [calculate_production_plan]
    builds it when the cost model returns. *)
Definition costed (self : ProductionPlanCalculator) (plant : PowerPlant)
    : PowerPlantWithCost :=
  mkPowerPlantWithCost plant
    (match calculate_cost_per_mwh self plant with
     | Ok cost => cost
     | Raise _ => 0
     end)
    (get_actual_pmax self plant).

(** The plan built from an allocation, one entry per plant in request order. *)
Definition plan_of (allocation : Dict.t) (plants : list PowerPlant)
    : list PowerPlantOutput :=
  map (fun plant =>
         mkPowerPlantOutput (name plant) (Dict.get_default allocation (name plant) 0))
      plants.

(** The allocation after both passes, the second one run only when the
    first leaves the load unmet. *)
Definition final_allocation (self : ProductionPlanCalculator)
    (plants_with_cost : list PowerPlantWithCost) : Dict.t :=
  let '(allocation, remaining_load) := first_pass self plants_with_cost in
  if Qltb 0.1 (Qabs remaining_load)
  then adjust_walk round1 (rev plants_with_cost) allocation remaining_load
  else allocation.

Definition is_wind_ranked (pwc : PowerPlantWithCost) : bool := is_wind (plant pwc).

(** ** Request validation ([models.py]) and the endpoint ([api.py])

    The field constraints and validators of the pydantic models, as checks
    on already parsed values.  A failed validation is [None]: what the
    [ValidationError] reports is not modelled. *)

Definition is_PowerPlantType_b (t : string) : bool :=
  String.eqb t GASFIRED || String.eqb t TURBOJET || String.eqb t WINDTURBINE.

(** [Fuels]: [wind_percentage] has [ge=0, le=100]. *)
Definition validate_Fuels (f : Fuels) : option Fuels :=
  if Qle_bool 0 (wind_percentage f) && Qle_bool (wind_percentage f) 100
  then Some f else None.

(** [PowerPlant.validate_pmax_greater_than_pmin]; [info_data_pmin] is
    [info.data["pmin"]], present when [pmin] passed its own constraint. *)
Definition validate_pmax_greater_than_pmin (pmax : Q) (info_data_pmin : option Q)
    : option Q :=
  match info_data_pmin with
  | Some pmin => if Qltb pmax pmin then None else Some pmax
  | None => Some pmax
  end.

(** [PowerPlant]: every field is checked, in declaration order, and the
    model is built only when none failed. *)
Definition validate_PowerPlant (raw : PowerPlant) : option PowerPlant :=
  let type_ok := is_PowerPlantType_b (type raw) in
  let efficiency_ok := Qltb 0 (efficiency raw) && Qle_bool (efficiency raw) 1 in
  let pmin_ok := Qle_bool 0 (pmin raw) in
  let info_data_pmin := if pmin_ok then Some (pmin raw) else None in
  let pmax_validated :=
    if Qltb 0 (pmax raw)
    then validate_pmax_greater_than_pmin (pmax raw) info_data_pmin
    else None in
  match pmax_validated with
  | Some pmax' =>
      if type_ok && efficiency_ok && pmin_ok
      then Some (mkPowerPlant (name raw) (type raw) (efficiency raw) (pmin raw) pmax')
      else None
  | None => None
  end.

(** [ProductionPlanRequest.validate_powerplants_not_empty] *)
Definition validate_powerplants_not_empty (powerplants : list PowerPlant)
    : option (list PowerPlant) :=
  match powerplants with
  | [] => None
  | _ => Some powerplants
  end.

Fixpoint validate_each (l : list PowerPlant) : option (list PowerPlant) :=
  match l with
  | [] => Some []
  | raw :: l' =>
      match validate_PowerPlant raw, validate_each l' with
      | Some pl, Some pls => Some (pl :: pls)
      | _, _ => None
      end
  end.

(** [ProductionPlanRequest]: [load] has [gt=0]; the list validator runs on
    the validated plants. *)
Definition validate_ProductionPlanRequest (raw : ProductionPlanRequest)
    : option ProductionPlanRequest :=
  let load_ok := Qltb 0 (request_load raw) in
  let powerplants_validated :=
    match validate_each (request_powerplants raw) with
    | Some pls => validate_powerplants_not_empty pls
    | None => None
    end in
  match validate_Fuels (request_fuels raw), powerplants_validated with
  | Some f, Some pls =>
      if load_ok then Some (mkProductionPlanRequest (request_load raw) f pls) else None
  | _, _ => None
  end.

(** The [/productionplan] endpoint (logging aside). *)
Definition productionplan (request : ProductionPlanRequest)
    : result (list PowerPlantOutput) :=
  let calculator := init request in
  calculate_production_plan calculator.

(** Total of the effective maxima, each rounded as the passes store it. *)
Definition total_rounded_capacity (self : ProductionPlanCalculator) : Q :=
  sum (map (fun plant => round1 (get_actual_pmax self plant)) (powerplants self)).

Definition total_capacity (self : ProductionPlanCalculator) : Q :=
  sum (map (get_actual_pmax self) (powerplants self)).

(** Whole numbers. *)
Definition is_whole (x : Q) : Prop := exists n : Z, x == inject_Z n.

(** ** Further scenarios *)

Module Scenarios.

Definition fuels : Fuels := mkFuels 13.4 50.8 20 60.

(** The example of the note in [_allocate_power]: load 110, two plants
    with pmin 20 and pmax 100. *)
Definition todo_example : ProductionPlanRequest :=
  mkProductionPlanRequest 110 fuels
    [mkPowerPlant "plant1" GASFIRED 0.53 20 100;
     mkPowerPlant "plant2" GASFIRED 0.53 20 100].

(** A plant whose pmax is not a multiple of 0.1, asked for a little more. *)
Definition rounded_above_pmax : ProductionPlanRequest :=
  mkProductionPlanRequest 10.1 fuels
    [mkPowerPlant "gas1" GASFIRED 0.53 0 10.06].

(** The same kind of plant facing a load it cannot cover. *)
Definition top_up_rounded_away : ProductionPlanRequest :=
  mkProductionPlanRequest 20 fuels
    [mkPowerPlant "gas1" GASFIRED 0.53 0 10.04].

(** Gas for free: the gas plant ties with the wind turbine on cost and
    has the larger effective maximum. *)
Definition free_gas : ProductionPlanRequest :=
  mkProductionPlanRequest 100 (mkFuels 0 50.8 0 100)
    [mkPowerPlant "wind1" WINDTURBINE 1 0 50;
     mkPowerPlant "gas1" GASFIRED 0.53 0 100].

(** Two plants under one name; the cheaper one cannot run below 200. *)
Definition same_name : ProductionPlanRequest :=
  mkProductionPlanRequest 100 fuels
    [mkPowerPlant "a" GASFIRED 0.53 200 300;
     mkPowerPlant "a" GASFIRED 0.37 0 100].

(** Wind at 30%: both turbines have an effective maximum below their pmin. *)
Definition becalmed : ProductionPlanRequest :=
  mkProductionPlanRequest 90.1 (mkFuels 13.4 50.8 20 30)
    [mkPowerPlant "windA" WINDTURBINE 1 50 100;
     mkPowerPlant "windB" WINDTURBINE 1 60.05 200].

(** A single small turbine and a load equal to the tolerance. *)
Definition breeze : ProductionPlanRequest :=
  mkProductionPlanRequest 0.1 (mkFuels 13.4 50.8 20 100)
    [mkPowerPlant "wind1" WINDTURBINE 1 0 0.1].

(** Three turbines whose effective maximum is not a multiple of 0.1. *)
Definition gusts : ProductionPlanRequest :=
  mkProductionPlanRequest 30.18 (mkFuels 13.4 50.8 20 100)
    [mkPowerPlant "wind1" WINDTURBINE 1 0 10.06;
     mkPowerPlant "wind2" WINDTURBINE 1 0 10.06;
     mkPowerPlant "wind3" WINDTURBINE 1 0 10.06].

End Scenarios.

Module Cases.

(** A plant of a type the cost model does not know, after a sound one. *)
Definition unknown_type : ProductionPlanRequest :=
  mkProductionPlanRequest 100 Scenarios.fuels
    [mkPowerPlant "gas1" GASFIRED 0.53 0 100;
     mkPowerPlant "reactor" "nuclear" 0.9 0 100;
     mkPowerPlant "tj1" TURBOJET 0.3 0 100].

(** More load than every plant flat out can deliver. *)
Definition overload : ProductionPlanRequest :=
  mkProductionPlanRequest 500 Scenarios.fuels
    [mkPowerPlant "gas1" GASFIRED 0.53 0 100;
     mkPowerPlant "tj1" TURBOJET 0.3 0 100;
     mkPowerPlant "wind1" WINDTURBINE 1 0 100].

(** Plants without a minimum output. *)
Definition no_pmin : ProductionPlanRequest :=
  mkProductionPlanRequest 170.5 Scenarios.fuels
    [mkPowerPlant "tj1" TURBOJET 0.3 0 100;
     mkPowerPlant "wind1" WINDTURBINE 1 0 100;
     mkPowerPlant "gas1" GASFIRED 0.53 0 100].

(** The same plants in another order. *)
Definition no_pmin_reordered : ProductionPlanRequest :=
  mkProductionPlanRequest 170.5 Scenarios.fuels
    [mkPowerPlant "gas1" GASFIRED 0.53 0 100;
     mkPowerPlant "tj1" TURBOJET 0.3 0 100;
     mkPowerPlant "wind1" WINDTURBINE 1 0 100].

(** A request pydantic turns down: pmax below pmin. *)
Definition pmax_below_pmin : ProductionPlanRequest :=
  mkProductionPlanRequest 100 Scenarios.fuels
    [mkPowerPlant "gas1" GASFIRED 0.53 50 40].

(** Whole megawatts throughout, and no minimum outputs. *)
Definition whole_numbers : ProductionPlanRequest :=
  mkProductionPlanRequest 170 Scenarios.fuels
    [mkPowerPlant "tj1" TURBOJET 0.3 0 100;
     mkPowerPlant "wind1" WINDTURBINE 1 0 100;
     mkPowerPlant "gas1" GASFIRED 0.53 0 100].

End Cases.

(** ** Tactics for concrete requests *)

(** Validity of a concrete request is a matter of evaluation. *)
Ltac solve_valid :=
  unfold valid_ProductionPlanRequest, valid_Fuels, valid_PowerPlant; cbn;
  repeat match goal with
         | |- _ /\ _ => split
         | |- Forall _ _ => constructor
         | |- is_PowerPlantType _ =>
             unfold is_PowerPlantType;
             first [left; reflexivity | right; left; reflexivity | right; right; reflexivity]
         | |- _ <> _ => discriminate
         | |- _ => cbn; lra
         end.

Ltac solve_nodup :=
  repeat (constructor; [cbn; intuition discriminate|]); constructor.

(** Discharging the per-plant side conditions on a concrete request. *)
Ltac each_plant H :=
  cbn in H;
  repeat match type of H with
         | _ \/ _ => destruct H as [<- | H]
         | False => destruct H
         end.

Ltac solve_is_tenth :=
  match goal with
  | |- is_tenth ?x => exists (Qfloor (x * 10)); vm_compute; reflexivity
  end.

Ltac solve_is_whole :=
  match goal with
  | |- is_whole ?x => exists (Qfloor x); vm_compute; reflexivity
  end.

(** ** Facts about numbers *)

Lemma Qltb_lt (x y : Q) : Qltb x y = true <-> x < y.
Proof.
  unfold Qltb. rewrite negb_true_iff.
  split; intro H.
  - apply Qnot_le_lt. intro Hle. apply Qle_bool_iff in Hle. congruence.
  - destruct (Qle_bool y x) eqn:E; [|reflexivity].
    apply Qle_bool_iff in E. lra.
Qed.

Lemma Qltb_ge (x y : Q) : Qltb x y = false <-> y <= x.
Proof.
  unfold Qltb. rewrite negb_false_iff. apply Qle_bool_iff.
Qed.

Lemma Qle_bool_gt (x y : Q) : Qle_bool x y = false <-> y < x.
Proof.
  split; intro H.
  - apply Qnot_le_lt. intro Hle. apply Qle_bool_iff in Hle. congruence.
  - destruct (Qle_bool x y) eqn:E; [|reflexivity].
    apply Qle_bool_iff in E. lra.
Qed.

#[global] Instance Qltb_comp : Proper (Qeq ==> Qeq ==> eq) Qltb.
Proof. intros x x' Hx y y' Hy. unfold Qltb. now rewrite Hx, Hy. Qed.

#[global] Instance round_half_even_comp : Proper (Qeq ==> eq) round_half_even.
Proof.
  intros x y H. unfold round_half_even. cbv zeta.
  rewrite (Qfloor_comp _ _ H).
  assert (E : x - inject_Z (Qfloor y) == y - inject_Z (Qfloor y)) by now rewrite H.
  rewrite !(Qltb_comp _ _ E _ _ (Qeq_refl _)).
  rewrite !(Qltb_comp _ _ (Qeq_refl _) _ _ E).
  reflexivity.
Qed.

#[global] Instance round1_comp : Proper (Qeq ==> eq) round1.
Proof.
  intros x y H. unfold round1.
  assert (E : x * 10 == y * 10) by now rewrite H.
  now rewrite (round_half_even_comp _ _ E).
Qed.

Lemma round_half_even_near (x : Q) :
  x - (1 # 2) <= inject_Z (round_half_even x) <= x + (1 # 2).
Proof.
  unfold round_half_even.
  pose proof (Qfloor_le x) as Hlo.
  pose proof (Qlt_floor x) as Hhi.
  rewrite inject_Z_plus in Hhi. change (inject_Z 1) with 1 in Hhi.
  destruct (Qltb (x - inject_Z (Qfloor x)) (1 # 2)) eqn:E1.
  - apply Qltb_lt in E1. lra.
  - apply Qltb_ge in E1.
    destruct (Qltb (1 # 2) (x - inject_Z (Qfloor x))) eqn:E2.
    + rewrite inject_Z_plus. change (inject_Z 1) with 1. lra.
    + apply Qltb_ge in E2.
      destruct (Z.even (Qfloor x)).
      * lra.
      * rewrite inject_Z_plus. change (inject_Z 1) with 1. lra.
Qed.

Lemma round_half_even_Z (n : Z) : round_half_even (inject_Z n) = n.
Proof.
  unfold round_half_even. rewrite Qfloor_Z.
  assert (E : inject_Z n - inject_Z n == 0) by ring.
  rewrite E. reflexivity.
Qed.

Lemma inject_Z_lt_succ (a b : Z) : inject_Z a < inject_Z b + 1 -> (a <= b)%Z.
Proof.
  intro H. change 1 with (inject_Z 1) in H. rewrite <- inject_Z_plus in H.
  rewrite <- Zlt_Qlt in H. lia.
Qed.

Lemma round_half_even_mono (x y : Q) :
  x <= y -> (round_half_even x <= round_half_even y)%Z.
Proof.
  intro Hxy.
  destruct (Qeq_dec x y) as [E|NE].
  - rewrite E. lia.
  - pose proof (round_half_even_near x) as Hx.
    pose proof (round_half_even_near y) as Hy.
    apply inject_Z_lt_succ.
    assert (x < y) by (destruct (Qlt_le_dec x y); [assumption|exfalso; apply NE; lra]).
    lra.
Qed.

Lemma round1_correct (x : Q) : round1 x == inject_Z (round_half_even (x * 10)) / 10.
Proof. unfold round1. apply Qred_correct. Qed.

Lemma round1_is_tenth (x : Q) : is_tenth (round1 x).
Proof. exists (round_half_even (x * 10)). apply round1_correct. Qed.

Lemma round1_tenth (x : Q) : is_tenth x -> round1 x == x.
Proof.
  intros [n Hn]. rewrite round1_correct.
  assert (E : x * 10 == inject_Z n) by (rewrite Hn; field).
  rewrite E, round_half_even_Z. now rewrite Hn.
Qed.

Lemma round1_idem (x : Q) : round1 (round1 x) == round1 x.
Proof. apply round1_tenth, round1_is_tenth. Qed.

Lemma round1_mono (x y : Q) : x <= y -> round1 x <= round1 y.
Proof.
  intro H. rewrite !round1_correct.
  assert (Hz : (round_half_even (x * 10) <= round_half_even (y * 10))%Z)
    by (apply round_half_even_mono; lra).
  rewrite Zle_Qle in Hz.
  unfold Qdiv. apply Qmult_le_compat_r; [assumption|].
  discriminate.
Qed.

Lemma round1_near (x : Q) : x - (1 # 20) <= round1 x <= x + (1 # 20).
Proof.
  rewrite round1_correct.
  pose proof (round_half_even_near (x * 10)) as H.
  set (z := inject_Z (round_half_even (x * 10))) in *.
  assert (E : z / 10 == z * (1 # 10)) by (unfold Qdiv; reflexivity).
  rewrite E. lra.
Qed.

Lemma round1_zero : round1 0 = 0.
Proof. reflexivity. Qed.

Lemma round1_nonneg (x : Q) : 0 <= x -> 0 <= round1 x.
Proof.
  intro H. apply round1_mono in H. now rewrite round1_zero in H.
Qed.

Lemma is_tenth_zero : is_tenth 0.
Proof. exists 0%Z. reflexivity. Qed.

#[global] Instance is_tenth_comp : Proper (Qeq ==> iff) is_tenth.
Proof.
  intros x y H. unfold is_tenth. split; intros [n Hn]; exists n.
  - now rewrite <- H.
  - now rewrite H.
Qed.

(** ** The test-suite scenarios run on the model *)

Example test_simple_wind_only :
  calculate_production_plan (init Tests.simple_wind_only)
  = Ok [mkPowerPlantOutput "wind1" 100].
Proof. vm_compute. reflexivity. Qed.

Example test_merit_order_gas_vs_turbojet :
  calculate_production_plan (init Tests.merit_order_gas_vs_turbojet)
  = Ok [mkPowerPlantOutput "gas1" 100; mkPowerPlantOutput "tj1" 0].
Proof. vm_compute. reflexivity. Qed.

Example test_wind_has_priority :
  calculate_production_plan (init Tests.wind_has_priority)
  = Ok [mkPowerPlantOutput "wind1" 50; mkPowerPlantOutput "gas1" 0].
Proof. vm_compute. reflexivity. Qed.

Example test_payload3_example :
  calculate_production_plan (init Tests.payload3)
  = Ok [mkPowerPlantOutput "gasfiredbig1" 460;
        mkPowerPlantOutput "gasfiredbig2" (Qred 338.4);
        mkPowerPlantOutput "gasfiredsomewhatsmaller" 0;
        mkPowerPlantOutput "tj1" 0;
        mkPowerPlantOutput "windpark1" 90;
        mkPowerPlantOutput "windpark2" (Qred 21.6)].
Proof. vm_compute. reflexivity. Qed.

(** ** Cost model *)

Lemma truediv_nonzero (x y : Q) : ~ y == 0 -> truediv x y = Ok (x / y).
Proof.
  intro H. unfold truediv.
  destruct (Qeq_bool y 0) eqn:E; [|reflexivity].
  apply Qeq_bool_iff in E. contradiction.
Qed.

Lemma truediv_zero (x y : Q) : y == 0 -> truediv x y = Raise ZeroDivisionError.
Proof.
  intro H. unfold truediv. apply Qeq_bool_iff in H. now rewrite H.
Qed.

(** C3: the cost per unit and the effective maximum of each category.
    A wind turbine costs 0 and is derated by the wind percentage; a
    gas-fired plant costs [gas / efficiency + co2 * 0.3 / efficiency], a
    turbojet the same with the kerosine price, and neither is derated.
    (The division needs a non-zero efficiency, which validation ensures.) *)
Theorem cost_model_by_category (self : ProductionPlanCalculator) (pl : PowerPlant) :
  (type pl = WINDTURBINE ->
     calculate_cost_per_mwh self pl = Ok 0 /\
     get_actual_pmax self pl = pmax pl * (wind_percentage (fuels self) / 100)) /\
  (type pl = GASFIRED -> ~ efficiency pl == 0 ->
     calculate_cost_per_mwh self pl
       = Ok (gas_euro_per_mwh (fuels self) / efficiency pl
             + co2_euro_per_ton (fuels self) * 0.3 / efficiency pl) /\
     get_actual_pmax self pl = pmax pl) /\
  (type pl = TURBOJET -> ~ efficiency pl == 0 ->
     calculate_cost_per_mwh self pl
       = Ok (kerosine_euro_per_mwh (fuels self) / efficiency pl
             + co2_euro_per_ton (fuels self) * 0.3 / efficiency pl) /\
     get_actual_pmax self pl = pmax pl).
Proof.
  unfold calculate_cost_per_mwh, get_actual_pmax.
  split; [|split].
  - intro Ht. rewrite Ht. split; reflexivity.
  - intros Ht He. rewrite Ht. cbn.
    rewrite !truediv_nonzero by assumption. split; reflexivity.
  - intros Ht He. rewrite Ht. cbn.
    rewrite !truediv_nonzero by assumption. split; reflexivity.
Qed.

Lemma cost_model_by_category_witness :
  let self := init Tests.merit_order_gas_vs_turbojet in
  let gas1 := mkPowerPlant "gas1" GASFIRED 0.53 0 100 in
  calculate_cost_per_mwh self gas1 = Ok (13.4 / 0.53 + 20 * 0.3 / 0.53) /\
  get_actual_pmax self gas1 = 100.
Proof.
  intros self gas1.
  apply (cost_model_by_category self gas1); [reflexivity | discriminate].
Defined.

(** C10: for a plant whose type is one of the three enumeration values
    the "Unknown power plant type" branch of [calculate_cost_per_mwh] is
    never taken; with the positive efficiency validation also ensures, the
    call returns a cost. *)
Theorem calculate_cost_per_mwh_known_type
    (self : ProductionPlanCalculator) (pl : PowerPlant) :
  is_PowerPlantType (type pl) ->
  (forall t, calculate_cost_per_mwh self pl <> Raise (UnknownPowerPlantType t)) /\
  (0 < efficiency pl -> exists cost, calculate_cost_per_mwh self pl = Ok cost).
Proof.
  intro Ht. unfold calculate_cost_per_mwh. split.
  - intros t.
    destruct Ht as [Ht | [Ht | Ht]]; rewrite Ht; cbn; try discriminate;
      unfold truediv; destruct (Qeq_bool (efficiency pl) 0); cbn; discriminate.
  - intro He.
    assert (Hne : ~ efficiency pl == 0) by lra.
    destruct Ht as [Ht | [Ht | Ht]]; rewrite Ht; cbn;
      rewrite ?truediv_nonzero by assumption; cbn; eexists; reflexivity.
Qed.

Lemma calculate_cost_per_mwh_known_type_witness :
  let self := init Tests.merit_order_gas_vs_turbojet in
  let tj1 := mkPowerPlant "tj1" TURBOJET 0.3 0 100 in
  (forall t, calculate_cost_per_mwh self tj1 <> Raise (UnknownPowerPlantType t)) /\
  (0 < efficiency tj1 -> exists cost, calculate_cost_per_mwh self tj1 = Ok cost).
Proof.
  intros self tj1.
  apply (calculate_cost_per_mwh_known_type self tj1).
  right; left; reflexivity.
Defined.

(** A type outside the enumeration does reach that branch. *)
Lemma calculate_cost_per_mwh_unknown_type (self : ProductionPlanCalculator) :
  calculate_cost_per_mwh self (mkPowerPlant "x" "nuclear" 1 0 10)
  = Raise (UnknownPowerPlantType "nuclear").
Proof. reflexivity. Qed.

(** ** Merit order *)

Section MeritOrder.

Implicit Types x y z : PowerPlantWithCost.
Implicit Types l : list PowerPlantWithCost.

Lemma tuple_lt_false x y :
  tuple_lt (sort_key y) (sort_key x) = false <-> merit_le x y.
Proof.
  unfold tuple_lt, sort_key, merit_le; cbn [fst snd].
  destruct (Qeq_bool (cost_per_mwh y) (cost_per_mwh x)) eqn:E.
  - apply Qeq_bool_iff in E. rewrite Qltb_ge. split.
    + intro H. right. split; [now symmetry | lra].
    + intros [H | [_ H]]; lra.
  - apply Qeq_bool_neq in E. rewrite Qltb_ge. split.
    + intro H. left.
      destruct (Qlt_le_dec (cost_per_mwh x) (cost_per_mwh y)); [assumption|].
      exfalso. apply E. lra.
    + intros [H | [H _]]; [lra | exfalso; apply E; now symmetry].
Qed.

Lemma tuple_lt_true x y :
  tuple_lt (sort_key y) (sort_key x) = true -> merit_le y x.
Proof.
  unfold tuple_lt, sort_key, merit_le; cbn [fst snd].
  destruct (Qeq_bool (cost_per_mwh y) (cost_per_mwh x)) eqn:E.
  - apply Qeq_bool_iff in E. rewrite Qltb_lt. intro H. right. split; [assumption | lra].
  - rewrite Qltb_lt. intro H. now left.
Qed.

Lemma merit_le_trans x y z : merit_le x y -> merit_le y z -> merit_le x z.
Proof.
  unfold merit_le. intros [H1 | [H1 H1']] [H2 | [H2 H2']].
  - left. lra.
  - left. lra.
  - left. lra.
  - right. split; lra.
Qed.

Lemma merit_le_antisym x y :
  merit_le x y -> merit_le y x -> same_rank x y = true.
Proof.
  unfold merit_le, same_rank. intros [H1 | [H1 H1']] [H2 | [H2 H2']]; try lra.
  apply andb_true_iff. split; apply Qeq_bool_iff; lra.
Qed.

Lemma same_rank_not_lt z x y :
  same_rank z y = true -> same_rank z x = true ->
  tuple_lt (sort_key y) (sort_key x) = false.
Proof.
  unfold same_rank. intros Hy Hx.
  apply andb_true_iff in Hy as [Hy1 Hy2]. apply andb_true_iff in Hx as [Hx1 Hx2].
  apply Qeq_bool_iff in Hy1, Hy2, Hx1, Hx2.
  apply tuple_lt_false. right. split; lra.
Qed.

Lemma insert_perm x l : Permutation (x :: l) (insert x l).
Proof.
  induction l as [|y l IH]; cbn.
  - apply Permutation_refl.
  - destruct (tuple_lt (sort_key y) (sort_key x)).
    + eapply perm_trans; [apply perm_swap|]. now apply perm_skip.
    + apply Permutation_refl.
Qed.

Lemma sort_perm l : Permutation l (sort l).
Proof.
  induction l as [|x l IH]; cbn.
  - apply perm_nil.
  - eapply perm_trans; [apply perm_skip, IH | apply insert_perm].
Qed.

Lemma insert_sorted x l :
  StronglySorted merit_le l -> StronglySorted merit_le (insert x l).
Proof.
  induction 1 as [|y l Hl IH Hy]; cbn.
  - repeat constructor.
  - destruct (tuple_lt (sort_key y) (sort_key x)) eqn:E.
    + constructor; [assumption|].
      apply (Permutation_Forall (insert_perm x l)).
      constructor; [now apply tuple_lt_true | assumption].
    + apply tuple_lt_false in E.
      constructor; [now constructor|].
      constructor; [assumption|].
      eapply Forall_impl; [|exact Hy].
      intros z Hz. now apply merit_le_trans with y.
Qed.

Lemma sort_sorted l : StronglySorted merit_le (sort l).
Proof.
  induction l as [|x l IH]; cbn; [constructor | now apply insert_sorted].
Qed.

Lemma insert_stable z x l :
  filter (same_rank z) (insert x l) = filter (same_rank z) (x :: l).
Proof.
  induction l as [|y l IH]; [reflexivity|].
  cbn [insert].
  destruct (tuple_lt (sort_key y) (sort_key x)) eqn:E; [|reflexivity].
  cbn [filter] in *. rewrite IH.
  destruct (same_rank z y) eqn:Ey, (same_rank z x) eqn:Ex; try reflexivity.
  rewrite (same_rank_not_lt z x y Ey Ex) in E. discriminate.
Qed.

Lemma sort_stable z l : filter (same_rank z) (sort l) = filter (same_rank z) l.
Proof.
  induction l as [|x l IH]; [reflexivity|].
  cbn [sort]. rewrite insert_stable. cbn [filter]. now rewrite IH.
Qed.

Lemma same_rank_refl x : same_rank x x = true.
Proof.
  unfold same_rank. apply andb_true_iff. split; apply Qeq_bool_iff; reflexivity.
Qed.

(** A ranked, stable rearrangement is unique: whatever algorithm
    [list.sort] runs, it returns the list [sort] returns. *)
Lemma stable_sorted_unique l1 : forall l2,
  Permutation l1 l2 ->
  StronglySorted merit_le l1 -> StronglySorted merit_le l2 ->
  (forall z, filter (same_rank z) l1 = filter (same_rank z) l2) ->
  l1 = l2.
Proof.
  induction l1 as [|x t1 IH]; intros l2 Hp Hs1 Hs2 Hf.
  - apply Permutation_nil in Hp. now subst.
  - destruct l2 as [|y t2].
    + apply Permutation_sym, Permutation_nil in Hp. discriminate.
    + assert (Hxy : same_rank x y = true).
      { apply StronglySorted_inv in Hs1 as [_ H1].
        apply StronglySorted_inv in Hs2 as [_ H2].
        assert (Hin1 : In y (x :: t1))
          by (eapply Permutation_in; [apply Permutation_sym, Hp | now left]).
        assert (Hin2 : In x (y :: t2))
          by (eapply Permutation_in; [apply Hp | now left]).
        destruct Hin1 as [<- | Hin1]; [apply same_rank_refl|].
        destruct Hin2 as [<- | Hin2]; [apply same_rank_refl|].
        rewrite Forall_forall in H1, H2.
        apply merit_le_antisym; auto. }
      pose proof (Hf x) as Hx. cbn [filter] in Hx.
      rewrite same_rank_refl, Hxy in Hx.
      injection Hx as Hhd _. subst y.
      f_equal. apply IH.
      * now apply Permutation_cons_inv in Hp.
      * now apply StronglySorted_inv in Hs1.
      * now apply StronglySorted_inv in Hs2.
      * intro z. specialize (Hf z). cbn [filter] in Hf.
        destruct (same_rank z x); [now injection Hf | assumption].
Qed.

End MeritOrder.

(** C6: the ranking is a rearrangement of the costed plants in which cost
    ascends, equal costs are ordered by descending effective maximum, and
    plants equal on both keys keep their input order. *)
Theorem sort_is_merit_order (l : list PowerPlantWithCost) :
  Permutation l (sort l) /\
  StronglySorted merit_le (sort l) /\
  (forall z, filter (same_rank z) (sort l) = filter (same_rank z) l).
Proof.
  split; [apply sort_perm | split; [apply sort_sorted | intro z; apply sort_stable]].
Qed.

(** ** The dictionary *)

Section DictFacts.

Implicit Types d : Dict.t.
Implicit Types k : string.
Implicit Types v : Q.

Lemma get_set_same d k v : Dict.get (Dict.set d k v) k = Some v.
Proof.
  induction d as [|[k' v'] d IH]; cbn.
  - now rewrite String.eqb_refl.
  - destruct (String.eqb k' k) eqn:E; cbn; now rewrite E.
Qed.

Lemma get_set_other d k k' v :
  k <> k' -> Dict.get (Dict.set d k v) k' = Dict.get d k'.
Proof.
  intro Hne. induction d as [|[k0 v0] d IH]; cbn.
  - apply String.eqb_neq in Hne. now rewrite Hne.
  - destruct (String.eqb k0 k) eqn:E; cbn.
    + apply String.eqb_eq in E. subst k0.
      apply String.eqb_neq in Hne. now rewrite Hne.
    + now rewrite IH.
Qed.

Lemma get_set d k k' v :
  Dict.get (Dict.set d k v) k' = if String.eqb k k' then Some v else Dict.get d k'.
Proof.
  destruct (String.eqb k k') eqn:E.
  - apply String.eqb_eq in E. subst. apply get_set_same.
  - apply String.eqb_neq in E. now apply get_set_other.
Qed.

Lemma get_default_set d k k' v :
  Dict.get_default (Dict.set d k v) k' 0
  = if String.eqb k k' then v else Dict.get_default d k' 0.
Proof.
  unfold Dict.get_default. rewrite get_set. now destruct (String.eqb k k').
Qed.

Lemma in_keys_get d k : In k (Dict.keys d) <-> Dict.get d k <> None.
Proof.
  induction d as [|[k' v'] d IH]; cbn.
  - split; [intros [] | congruence].
  - destruct (String.eqb k' k) eqn:E.
    + apply String.eqb_eq in E. split; [discriminate | now left].
    + apply String.eqb_neq in E. rewrite <- IH. tauto.
Qed.

Lemma keys_set_present d k v :
  In k (Dict.keys d) -> Dict.keys (Dict.set d k v) = Dict.keys d.
Proof.
  induction d as [|[k' v'] d IH]; cbn; [intros []|].
  intro H. destruct (String.eqb k' k) eqn:E; cbn; [reflexivity|].
  apply String.eqb_neq in E. f_equal. apply IH. tauto.
Qed.

Lemma keys_set_absent d k v :
  ~ In k (Dict.keys d) -> Dict.keys (Dict.set d k v) = Dict.keys d ++ [k].
Proof.
  induction d as [|[k' v'] d IH]; cbn; [reflexivity|].
  intro H. destruct (String.eqb k' k) eqn:E; cbn.
  - apply String.eqb_eq in E. tauto.
  - f_equal. apply IH. tauto.
Qed.

Lemma in_keys_set d k k' v :
  In k' (Dict.keys (Dict.set d k v)) <-> k' = k \/ In k' (Dict.keys d).
Proof.
  rewrite !in_keys_get, get_set.
  destruct (String.eqb k k') eqn:E.
  - apply String.eqb_eq in E. split; [now left | discriminate].
  - apply String.eqb_neq in E. split; [now right | intros [H | H]; congruence].
Qed.

Lemma nodup_keys_set d k v :
  NoDup (Dict.keys d) -> NoDup (Dict.keys (Dict.set d k v)).
Proof.
  intro H. destruct (in_dec string_dec k (Dict.keys d)) as [Hin | Hout].
  - now rewrite keys_set_present.
  - rewrite keys_set_absent by assumption.
    apply NoDup_app; [assumption | repeat constructor; intros [] |].
    intros x Hx [<- | []]. contradiction.
Qed.

(** With unique keys, the values are what looking each key up gives. *)
Lemma values_by_keys d :
  NoDup (Dict.keys d) ->
  Dict.values d = map (fun k => Dict.get_default d k 0) (Dict.keys d).
Proof.
  unfold Dict.values, Dict.keys.
  induction d as [|[k v] d IH]; [reflexivity|].
  cbn [map fst snd]. intro H. apply NoDup_cons_iff in H as [Hout Hnd].
  f_equal.
  - unfold Dict.get_default. cbn. now rewrite String.eqb_refl.
  - rewrite IH by assumption. apply map_ext_in.
    intros k' Hin. unfold Dict.get_default. cbn.
    destruct (String.eqb k k') eqn:E; [|reflexivity].
    apply String.eqb_eq in E. subst. contradiction.
Qed.

Lemma length_values d : List.length (Dict.values d) = List.length (Dict.keys d).
Proof. unfold Dict.values, Dict.keys. now rewrite !List.length_map. Qed.

End DictFacts.

(** ** First pass *)

Section FirstPass.

Implicit Types pwc : PowerPlantWithCost.
Implicit Types l : list PowerPlantWithCost.
Implicit Types a : Dict.t.
Implicit Types r : Q.

Local Abbreviation pname pwc := (name (plant pwc)).

(** The three ways one turn of the loop can go. *)
Lemma allocate_step_cases a r pwc :
  (r <= 0.1 /\
   allocate_step (a, r) pwc = (Dict.set a (pname pwc) 0, r)) \/
  (0.1 < r /\ pmin (plant pwc) <= Qmin (actual_pmax pwc) r /\
   allocate_step (a, r) pwc
   = (Dict.set a (pname pwc) (round1 (Qmin (actual_pmax pwc) r)),
      r - round1 (Qmin (actual_pmax pwc) r))) \/
  (0.1 < r /\ Qmin (actual_pmax pwc) r < pmin (plant pwc) /\
   allocate_step (a, r) pwc = (Dict.set a (pname pwc) 0, r)).
Proof.
  unfold allocate_step.
  destruct (Qle_bool r 0.1) eqn:E1.
  - left. apply Qle_bool_iff in E1. now split.
  - apply Qle_bool_gt in E1. right.
    destruct (Qle_bool (pmin (plant pwc)) (Qmin (actual_pmax pwc) r)) eqn:E2.
    + left. apply Qle_bool_iff in E2. now repeat split.
    + right. apply Qle_bool_gt in E2. now repeat split.
Qed.

Lemma allocate_step_sets a r pwc :
  exists v, fst (allocate_step (a, r) pwc) = Dict.set a (pname pwc) v.
Proof.
  destruct (allocate_step_cases a r pwc) as [[_ ->] | [(_ & _ & ->) | (_ & _ & ->)]];
    eexists; reflexivity.
Qed.

Lemma greedy_walk_run l : forall a r,
  greedy_walk l a r
    (fst (fold_left allocate_step l (a, r))) (snd (fold_left allocate_step l (a, r))).
Proof.
  induction l as [|pwc l IH]; intros a r; cbn [fold_left].
  - constructor.
  - destruct (allocate_step_cases a r pwc)
      as [[H ->] | [(H1 & H2 & ->) | (H1 & H2 & ->)]].
    + now apply greedy_idle.
    + now apply greedy_assign.
    + now apply greedy_skip.
Qed.

Lemma greedy_walk_functional l a r a' r' :
  greedy_walk l a r a' r' -> fold_left allocate_step l (a, r) = (a', r').
Proof.
  induction 1 as [a r | pwc l a r a' r' H _ IH | pwc l a r a' r' H1 H2 _ IH
                  | pwc l a r a' r' H1 H2 _ IH];
    cbn [fold_left]; [reflexivity | | |]; rewrite <- IH; f_equal;
    unfold allocate_step.
  - apply Qle_bool_iff in H. now rewrite H.
  - apply Qle_bool_gt in H1. apply Qle_bool_iff in H2. now rewrite H1, H2.
  - apply Qle_bool_gt in H1, H2. now rewrite H1, H2.
Qed.

Lemma fold_allocate_keys l : forall a r k,
  In k (Dict.keys (fst (fold_left allocate_step l (a, r))))
  <-> In k (Dict.keys a) \/ In k (map (fun pwc => pname pwc) l).
Proof.
  induction l as [|pwc l IH]; intros a r k; cbn [fold_left map].
  - cbn. tauto.
  - destruct (allocate_step_sets a r pwc) as [v Hv].
    destruct (allocate_step (a, r) pwc) as [a1 r1]. cbn in Hv. subst a1.
    rewrite IH, in_keys_set. cbn. intuition congruence.
Qed.

Lemma fold_allocate_nodup l : forall a r,
  NoDup (Dict.keys a) ->
  NoDup (Dict.keys (fst (fold_left allocate_step l (a, r)))).
Proof.
  induction l as [|pwc l IH]; intros a r H; cbn [fold_left]; [assumption|].
  destruct (allocate_step_sets a r pwc) as [v Hv].
  destruct (allocate_step (a, r) pwc) as [a1 r1]. cbn in Hv. subst a1.
  apply IH. now apply nodup_keys_set.
Qed.

Lemma first_pass_covers self l pwc :
  In pwc l -> exists v, Dict.get (fst (first_pass self l)) (pname pwc) = Some v.
Proof.
  intro Hin.
  assert (H : In (pname pwc) (Dict.keys (fst (first_pass self l)))).
  { unfold first_pass. apply fold_allocate_keys. right.
    apply in_map_iff. now exists pwc. }
  apply in_keys_get in H.
  destruct (Dict.get _ _) as [v|]; [now exists v | congruence].
Qed.

End FirstPass.

(** C4: the first pass is the greedy walk of the specification, started
    from the empty allocation and the requested load.  At each plant's turn:
    with [remaining_load <= 0.1] the plant gets 0; otherwise, with
    [available = min(effective_max, remaining_load)], it gets
    [round(available, 1)], which is subtracted from the remaining load, when
    [available >= pmin], and 0 when [available < pmin].  Afterwards every
    ranked plant has an entry. *)
Theorem first_pass_is_greedy_walk
    (self : ProductionPlanCalculator) (ranked : list PowerPlantWithCost) :
  greedy_walk ranked Dict.empty (load self)
    (fst (first_pass self ranked)) (snd (first_pass self ranked)) /\
  (forall a' r', greedy_walk ranked Dict.empty (load self) a' r' ->
     first_pass self ranked = (a', r')) /\
  (forall pwc, In pwc ranked ->
     exists v, Dict.get (fst (first_pass self ranked)) (name (plant pwc)) = Some v).
Proof.
  split; [apply greedy_walk_run | split].
  - intros a' r'. apply greedy_walk_functional.
  - intro pwc. apply first_pass_covers.
Qed.

(** ** Second pass *)

Section SecondPass.

Implicit Types pwc : PowerPlantWithCost.
Implicit Types l : list PowerPlantWithCost.
Implicit Types a : Dict.t.
Implicit Types r : Q.

Local Abbreviation pname pwc := (name (plant pwc)).

(** The loop goes on exactly while the shortfall exceeds the tolerance. *)
Lemma walk_guard r :
  Qltb 0.1 (Qabs r) && Qltb 0 r = true <-> 0.1 < r.
Proof.
  rewrite andb_true_iff, !Qltb_lt. split.
  - intros [H1 H2]. rewrite Qabs_pos in H1; lra.
  - intro H. split; [rewrite Qabs_pos; lra | lra].
Qed.

Lemma walk_guard_false r :
  Qltb 0.1 (Qabs r) && Qltb 0 r = false <-> r <= 0.1.
Proof.
  split; intro H.
  - destruct (Qlt_le_dec 0.1 r) as [Hlt|]; [|assumption].
    apply walk_guard in Hlt. congruence.
  - destruct (Qltb 0.1 (Qabs r) && Qltb 0 r) eqn:E; [|reflexivity].
    apply walk_guard in E. lra.
Qed.

(** The ways one turn of the walk can go. *)
Lemma adjust_walk_cases rnd pwc l a r :
  (r <= 0.1 /\ adjust_walk rnd (pwc :: l) a r = a) \/
  (0.1 < r /\ exists current,
     Dict.get a (pname pwc) = Some current /\
     0 < current < actual_pmax pwc /\
     adjust_walk rnd (pwc :: l) a r
     = adjust_walk rnd l
         (Dict.set a (pname pwc)
            (rnd (current + Qmin (actual_pmax pwc - current) r)))
         (r - Qmin (actual_pmax pwc - current) r)) \/
  (0.1 < r /\ exists current,
     Dict.get a (pname pwc) = Some current /\
     current == 0 /\ pmin (plant pwc) <= r /\
     adjust_walk rnd (pwc :: l) a r
     = adjust_walk rnd l
         (Dict.set a (pname pwc) (rnd (Qmin r (actual_pmax pwc))))
         (r - Qmin r (actual_pmax pwc))) \/
  (0.1 < r /\ adjust_walk rnd (pwc :: l) a r = adjust_walk rnd l a r).
Proof.
  cbn [adjust_walk].
  destruct (Qltb 0.1 (Qabs r) && Qltb 0 r) eqn:G.
  - apply walk_guard in G. right.
    destruct (Dict.get a (pname pwc)) as [current|] eqn:Hget.
    + destruct (Qltb 0 current && Qltb current (actual_pmax pwc)) eqn:E1.
      * left. split; [assumption|]. exists current.
        apply andb_true_iff in E1 as [E1 E1']. apply Qltb_lt in E1, E1'.
        repeat split; assumption || reflexivity.
      * right.
        destruct (Qeq_bool current 0 && Qle_bool (pmin (plant pwc)) r) eqn:E2.
        -- left. split; [assumption|]. exists current.
           apply andb_true_iff in E2 as [E2 E2'].
           apply Qeq_bool_iff in E2. apply Qle_bool_iff in E2'.
           repeat split; assumption || reflexivity.
        -- right. now split.
    + right. right. now split.
  - apply walk_guard_false in G. left. now split.
Qed.

Lemma adjust_loop_stopped l : forall a r,
  r <= 0 ->
  (forall pwc, In pwc l -> In (pname pwc) (Dict.keys a)) ->
  adjust_loop l a r = Ok a.
Proof.
  induction l as [|pwc l IH]; intros a r Hr Hk; [reflexivity|].
  cbn [adjust_loop].
  destruct (Qle_bool (Qabs r) 0.1); [reflexivity|].
  assert (Hin : In (pname pwc) (Dict.keys a)) by (apply Hk; now left).
  apply in_keys_get in Hin. unfold Dict.getitem.
  destruct (Dict.get a (pname pwc)) as [current|]; [|congruence].
  cbn [bind].
  assert (E : Qltb 0 r = false) by now apply Qltb_ge.
  rewrite E. apply IH; [assumption|].
  intros q Hq. apply Hk. now right.
Qed.

(** With an entry for every plant, the loop of [_adjust_allocation] never
    raises and computes the walk with rounded stores. *)
Lemma adjust_loop_walk l : forall a r,
  (forall pwc, In pwc l -> In (pname pwc) (Dict.keys a)) ->
  adjust_loop l a r = Ok (adjust_walk round1 l a r).
Proof.
  induction l as [|pwc l IH]; intros a r Hk; [reflexivity|].
  assert (Hl : forall v q, In q l -> In (pname q) (Dict.keys (Dict.set a (pname pwc) v))).
  { intros v q Hq. apply in_keys_set. right. apply Hk. now right. }
  assert (Hl' : forall q, In q l -> In (pname q) (Dict.keys a)).
  { intros q Hq. apply Hk. now right. }
  assert (Hin : In (pname pwc) (Dict.keys a)) by (apply Hk; now left).
  apply in_keys_get in Hin.
  cbn [adjust_loop adjust_walk].
  destruct (Qle_bool (Qabs r) 0.1) eqn:E.
  - apply Qle_bool_iff in E.
    assert (G : Qltb 0.1 (Qabs r) = false) by now apply Qltb_ge.
    now rewrite G.
  - apply Qle_bool_gt in E. apply Qltb_lt in E. rewrite E. cbn [andb].
    unfold Dict.getitem.
    destruct (Dict.get a (pname pwc)) as [current|]; [|congruence].
    cbn [bind].
    destruct (Qltb 0 r) eqn:Hr.
    + destruct (Qltb 0 current && Qltb current (actual_pmax pwc)).
      * apply IH, Hl.
      * destruct (Qeq_bool current 0 && Qle_bool (pmin (plant pwc)) r);
          [apply IH, Hl | apply IH, Hl'].
    + apply Qltb_ge in Hr. now apply adjust_loop_stopped.
Qed.

Lemma allocate_power_unfold self l :
  _allocate_power self l
  = (allocation <- allocation_passes self l ;; check_total self allocation).
Proof.
  unfold _allocate_power, allocation_passes, check_total.
  now destruct (first_pass self l) as [a r].
Qed.

Lemma adjust_allocation_walk self l a r :
  (forall pwc, In pwc l -> In (pname pwc) (Dict.keys a)) ->
  _adjust_allocation self l a r = Ok (adjust_walk round1 (rev l) a r).
Proof.
  intro Hk. unfold _adjust_allocation. apply adjust_loop_walk.
  intros pwc Hin. apply Hk. now apply in_rev.
Qed.

Lemma first_pass_keys self l pwc :
  In pwc l -> In (pname pwc) (Dict.keys (fst (first_pass self l))).
Proof.
  intro Hin. apply in_keys_get.
  destruct (first_pass_covers self l pwc Hin) as [v ->]. discriminate.
Qed.

Lemma allocation_passes_walk self l :
  allocation_passes self l
  = Ok (if Qltb 0.1 (Qabs (snd (first_pass self l)))
        then adjust_walk round1 (rev l) (fst (first_pass self l)) (snd (first_pass self l))
        else fst (first_pass self l)).
Proof.
  unfold allocation_passes.
  pose proof (first_pass_keys self l) as Hk.
  destruct (first_pass self l) as [a r]. cbn [fst snd] in *.
  destruct (Qltb 0.1 (Qabs r)); [|reflexivity].
  now apply adjust_allocation_walk.
Qed.

End SecondPass.

(** C5 (as the calculator does it): [_allocate_power] runs the second pass
    only when the remaining load after the first pass is off by more than
    0.1.  The pass walks the ranked plants in reverse and, while the
    remaining load exceeds 0.1: a plant with a positive allocation below its
    effective maximum has it replaced by
    [round(current + min(effective_max - current, remaining_load), 1)], an
    idle plant with [remaining_load >= pmin] is started at
    [round(min(remaining_load, effective_max), 1)], the remaining load being
    decremented by the unrounded amount in both cases; any other plant is
    left unchanged. *)
Theorem adjustment_pass_is_rounded_walk
    (self : ProductionPlanCalculator) (ranked : list PowerPlantWithCost) :
  _allocate_power self ranked
  = (allocation <- allocation_passes self ranked ;; check_total self allocation) /\
  allocation_passes self ranked
  = Ok (if Qltb 0.1 (Qabs (snd (first_pass self ranked)))
        then adjust_walk round1 (rev ranked)
               (fst (first_pass self ranked)) (snd (first_pass self ranked))
        else fst (first_pass self ranked)) /\
  _adjust_allocation self ranked (fst (first_pass self ranked)) (snd (first_pass self ranked))
  = Ok (adjust_walk round1 (rev ranked)
          (fst (first_pass self ranked)) (snd (first_pass self ranked))).
Proof.
  split; [apply allocate_power_unfold | split].
  - apply allocation_passes_walk.
  - apply adjust_allocation_walk. intros pwc. apply first_pass_keys.
Qed.

(** C5, as worded, does not hold: a single plant with pmax 10.04 facing a
    load of 20 holds 10 after the first pass; the second pass computes an
    increase of 0.04, stores [round(10.04, 1) = 10] and still takes 0.04
    off the remaining load, where an increase by
    [min(effective_max - current, remaining_load)] would store 10.04. *)
Lemma adjustment_pass_increase_is_rounded :
  exists ranked allocation remaining_load adjusted,
    merit_order (init Scenarios.top_up_rounded_away) = Ok ranked /\
    first_pass (init Scenarios.top_up_rounded_away) ranked = (allocation, remaining_load) /\
    0.1 < Qabs remaining_load /\
    _adjust_allocation (init Scenarios.top_up_rounded_away) ranked allocation remaining_load
    = Ok adjusted /\
    Dict.get_default allocation "gas1" 0 == 10 /\
    Dict.get_default adjusted "gas1" 0 == 10 /\
    Dict.get_default
      (adjust_walk (fun x => x) (rev ranked) allocation remaining_load) "gas1" 0
    == 10 + Qmin (10.04 - 10) 10 /\
    ~ Dict.get_default adjusted "gas1" 0
      == Dict.get_default
           (adjust_walk (fun x => x) (rev ranked) allocation remaining_load) "gas1" 0.
Proof.
  do 4 eexists.
  split; [vm_compute; reflexivity|].
  split; [vm_compute; reflexivity|].
  split; [vm_compute; reflexivity|].
  split; [vm_compute; reflexivity|].
  split; [vm_compute; reflexivity|].
  split; [vm_compute; reflexivity|].
  split; [vm_compute; reflexivity|].
  vm_compute. discriminate.
Qed.

(** ** Sums *)

Section Sums.

Implicit Types l : list Q.

Lemma fold_plus_shift l : forall x, fold_left Qplus l x == x + sum l.
Proof.
  unfold sum. induction l as [|y l IH]; intro x; cbn [fold_left].
  - ring.
  - rewrite (IH (x + y)), (IH (0 + y)). ring.
Qed.

Lemma sum_cons x l : sum (x :: l) == x + sum l.
Proof. unfold sum at 1. cbn [fold_left]. rewrite fold_plus_shift. ring. Qed.

Lemma sum_app l1 l2 : sum (l1 ++ l2) == sum l1 + sum l2.
Proof.
  induction l1 as [|x l1 IH]; cbn [app].
  - change (sum []) with 0. ring.
  - rewrite !sum_cons, IH. ring.
Qed.

Lemma sum_perm l1 l2 : Permutation l1 l2 -> sum l1 == sum l2.
Proof.
  induction 1 as [| x l1 l2 _ IH | x y l | l1 l2 l3 _ IH1 _ IH2].
  - reflexivity.
  - now rewrite !sum_cons, IH.
  - rewrite !sum_cons. ring.
  - now rewrite IH1.
Qed.

Lemma sum_nonneg l : Forall (fun x => 0 <= x) l -> 0 <= sum l.
Proof.
  induction 1 as [|x l Hx _ IH].
  - unfold sum. cbn. lra.
  - rewrite sum_cons. lra.
Qed.

End Sums.

(** ** What both passes preserve *)

Section Preserved.

Implicit Types pwc : PowerPlantWithCost.
Implicit Types l : list PowerPlantWithCost.
Implicit Types a : Dict.t.
Implicit Types r : Q.

Local Abbreviation pname pwc := (name (plant pwc)).

Lemma round1_rounded x : rounded (round1 x).
Proof.
  assert (E : round1 x * 10 == inject_Z (round_half_even (x * 10)))
    by (rewrite round1_correct; field).
  unfold rounded. unfold round1 at 1.
  now rewrite (round_half_even_comp _ _ E), round_half_even_Z.
Qed.

Lemma rounded_zero : rounded 0.
Proof. reflexivity. Qed.

Lemma rounded_is_tenth v : rounded v -> is_tenth v.
Proof. unfold rounded. intros <-. apply round1_is_tenth. Qed.

Lemma all_values_empty P : all_values P Dict.empty.
Proof. intros k v. discriminate. Qed.

Lemma all_values_set P a k v :
  all_values P a -> P v -> all_values P (Dict.set a k v).
Proof.
  intros Ha Hv k' v'. rewrite get_set.
  destruct (String.eqb k k'); [intros [= <-]; assumption | apply Ha].
Qed.

Lemma all_values_default P a k : all_values P a -> P 0 -> P (Dict.get_default a k 0).
Proof.
  intros Ha H0. unfold Dict.get_default.
  destruct (Dict.get a k) as [v|] eqn:E; [now apply (Ha k) | assumption].
Qed.

(** A property of the stored values survives the first pass when the
    values the pass can store have it. *)
Lemma fold_allocate_all_values P l : forall a r,
  P 0 ->
  (forall pwc r', In pwc l -> 0.1 < r' ->
     pmin (plant pwc) <= Qmin (actual_pmax pwc) r' ->
     P (round1 (Qmin (actual_pmax pwc) r'))) ->
  all_values P a ->
  all_values P (fst (fold_left allocate_step l (a, r))).
Proof.
  induction l as [|pwc l IH]; intros a r H0 Hs Ha; cbn [fold_left]; [assumption|].
  assert (Hl : forall q r', In q l -> 0.1 < r' ->
            pmin (plant q) <= Qmin (actual_pmax q) r' ->
            P (round1 (Qmin (actual_pmax q) r')))
    by (intros q r' Hq; apply Hs; now right).
  destruct (allocate_step_cases a r pwc)
    as [[_ ->] | [(H1 & H2 & ->) | (_ & _ & ->)]];
    apply IH; try assumption; apply all_values_set; try assumption.
  apply Hs; [now left | assumption | assumption].
Qed.

(** The same for the second pass. *)
Lemma adjust_walk_all_values P rnd l : forall a r,
  (forall pwc current r', In pwc l -> P current -> 0.1 < r' ->
     0 < current < actual_pmax pwc ->
     P (rnd (current + Qmin (actual_pmax pwc - current) r'))) ->
  (forall pwc r', In pwc l -> 0.1 < r' -> pmin (plant pwc) <= r' ->
     P (rnd (Qmin r' (actual_pmax pwc)))) ->
  all_values P a ->
  all_values P (adjust_walk rnd l a r).
Proof.
  induction l as [|pwc l IH]; intros a r Ht Hs Ha; [assumption|].
  assert (Ht' : forall q current r', In q l -> P current -> 0.1 < r' ->
            0 < current < actual_pmax q ->
            P (rnd (current + Qmin (actual_pmax q - current) r')))
    by (intros q c r' Hq; apply Ht; now right).
  assert (Hs' : forall q r', In q l -> 0.1 < r' -> pmin (plant q) <= r' ->
            P (rnd (Qmin r' (actual_pmax q))))
    by (intros q r' Hq; apply Hs; now right).
  destruct (adjust_walk_cases rnd pwc l a r)
    as [[_ ->] | [(Hr & c & Hc & Hb & ->) | [(Hr & c & Hc & Hz & Hp & ->) | [_ ->]]]].
  - assumption.
  - apply IH; try assumption. apply all_values_set; [assumption|].
    apply Ht; [now left | now apply (Ha _ _ Hc) | assumption | assumption].
  - apply IH; try assumption. apply all_values_set; [assumption|].
    apply Hs; [now left | assumption | assumption].
  - now apply IH.
Qed.

Lemma first_pass_rounded self l : all_values rounded (fst (first_pass self l)).
Proof.
  apply fold_allocate_all_values.
  - apply rounded_zero.
  - intros. apply round1_rounded.
  - apply all_values_empty.
Qed.

Lemma adjust_walk_rounded l a r :
  all_values rounded a -> all_values rounded (adjust_walk round1 l a r).
Proof.
  apply adjust_walk_all_values; intros; apply round1_rounded.
Qed.

Lemma first_pass_nonneg self l :
  Forall (fun pwc => 0 <= actual_pmax pwc) l ->
  all_values (fun v => 0 <= v) (fst (first_pass self l)).
Proof.
  intro Hl. rewrite Forall_forall in Hl.
  apply fold_allocate_all_values.
  - lra.
  - intros pwc r Hin Hr _. apply round1_nonneg.
    apply Q.min_glb; [now apply Hl | lra].
  - apply all_values_empty.
Qed.

Lemma adjust_walk_nonneg l a r :
  Forall (fun pwc => 0 <= actual_pmax pwc) l ->
  all_values (fun v => 0 <= v) a ->
  all_values (fun v => 0 <= v) (adjust_walk round1 l a r).
Proof.
  intro Hl. rewrite Forall_forall in Hl.
  apply adjust_walk_all_values.
  - intros pwc c r' Hin Hc Hr Hb. apply round1_nonneg.
    assert (0 <= Qmin (actual_pmax pwc - c) r') by (apply Q.min_glb; lra).
    lra.
  - intros pwc r' Hin Hr _. apply round1_nonneg.
    apply Q.min_glb; [lra | now apply Hl].
Qed.

(** The second pass writes only to keys that are there. *)
Lemma adjust_walk_keys rnd l : forall a r,
  Dict.keys (adjust_walk rnd l a r) = Dict.keys a.
Proof.
  induction l as [|pwc l IH]; intros a r; [reflexivity|].
  destruct (adjust_walk_cases rnd pwc l a r)
    as [[_ ->] | [(Hr & c & Hc & Hb & ->) | [(Hr & c & Hc & Hz & Hp & ->) | [_ ->]]]];
    try reflexivity; rewrite ?IH; try reflexivity;
    apply keys_set_present, in_keys_get; congruence.
Qed.

End Preserved.

(** ** From the request to the ranked plants *)

Section Request.

Variable request : ProductionPlanRequest.
Hypothesis request_valid : valid_ProductionPlanRequest request.

Local Abbreviation self := (init request).

Lemma for_each_map {A B : Type} (f : A -> result B) (g : A -> B) (l : list A) :
  (forall x, In x l -> f x = Ok (g x)) -> for_each f l = Ok (map g l).
Proof.
  induction l as [|x l IH]; intro H; [reflexivity|].
  cbn [for_each map]. rewrite (H x) by now left. cbn [bind].
  rewrite IH by (intros y Hy; apply H; now right). reflexivity.
Qed.

Lemma valid_plants pl : In pl (powerplants self) -> valid_PowerPlant pl.
Proof.
  destruct request_valid as (_ & _ & H & _). rewrite Forall_forall in H. apply H.
Qed.

Lemma with_cost_valid pl :
  In pl (powerplants self) -> with_cost self pl = Ok (costed self pl).
Proof.
  intro Hin. destruct (valid_plants pl Hin) as (Ht & He & _).
  destruct (calculate_cost_per_mwh_known_type self pl Ht) as [_ H].
  destruct (H (proj1 He)) as [c Hc].
  unfold with_cost, costed. now rewrite Hc.
Qed.

Lemma merit_order_valid :
  merit_order self = Ok (sort (map (costed self) (powerplants self))).
Proof.
  unfold merit_order.
  rewrite (for_each_map _ (costed self)) by apply with_cost_valid.
  reflexivity.
Qed.

Lemma ranked_perm :
  Permutation (map (costed self) (powerplants self))
    (sort (map (costed self) (powerplants self))).
Proof. apply sort_perm. Qed.

Lemma ranked_in pwc :
  In pwc (sort (map (costed self) (powerplants self)))
  <-> exists pl, In pl (powerplants self) /\ pwc = costed self pl.
Proof.
  split.
  - intro H. apply (Permutation_in _ (Permutation_sym ranked_perm)) in H.
    apply in_map_iff in H as (pl & <- & Hin). now exists pl.
  - intros (pl & Hin & ->). apply (Permutation_in _ ranked_perm).
    now apply in_map.
Qed.

Lemma ranked_names :
  Permutation (map name (powerplants self))
    (map (fun pwc => name (plant pwc)) (sort (map (costed self) (powerplants self)))).
Proof.
  eapply perm_trans; [|apply Permutation_map, ranked_perm].
  rewrite map_map. apply Permutation_refl.
Qed.

Lemma actual_pmax_nonneg pl :
  In pl (powerplants self) -> 0 <= get_actual_pmax self pl.
Proof.
  intro Hin. destruct (valid_plants pl Hin) as (_ & _ & _ & Hp & _).
  destruct request_valid as (_ & Hw & _). unfold valid_Fuels in Hw.
  unfold get_actual_pmax.
  change (fuels self) with (request_fuels request).
  destruct (String.eqb (type pl) WINDTURBINE); [|lra].
  apply Qmult_le_0_compat; [lra|].
  apply Qle_shift_div_l; [reflexivity | lra].
Qed.

Lemma ranked_nonneg :
  Forall (fun pwc => 0 <= actual_pmax pwc)
    (sort (map (costed self) (powerplants self))).
Proof.
  apply Forall_forall. intros pwc H.
  apply ranked_in in H as (pl & Hin & ->). now apply actual_pmax_nonneg.
Qed.

End Request.

(** ** The plan *)

Section Plan.

Implicit Types self : ProductionPlanCalculator.
Implicit Types ranked : list PowerPlantWithCost.
Implicit Types a : Dict.t.

Lemma calculate_production_plan_unfold self :
  calculate_production_plan self
  = (ranked <- merit_order self ;;
     allocation <- _allocate_power self ranked ;;
     for_each (response_entry allocation) (powerplants self)).
Proof.
  unfold calculate_production_plan, merit_order.
  now destruct (for_each (with_cost self) (powerplants self)).
Qed.

Lemma allocation_passes_final self ranked :
  allocation_passes self ranked = Ok (final_allocation self ranked).
Proof.
  rewrite allocation_passes_walk. unfold final_allocation.
  now destruct (first_pass self ranked).
Qed.

Lemma final_allocation_rounded self ranked :
  all_values rounded (final_allocation self ranked).
Proof.
  unfold final_allocation.
  pose proof (first_pass_rounded self ranked) as H.
  destruct (first_pass self ranked) as [a r]. cbn [fst] in H.
  destruct (Qltb 0.1 (Qabs r)); [now apply adjust_walk_rounded | assumption].
Qed.

Lemma final_allocation_nonneg self ranked :
  Forall (fun pwc => 0 <= actual_pmax pwc) ranked ->
  all_values (fun v => 0 <= v) (final_allocation self ranked).
Proof.
  intro Hl. unfold final_allocation.
  pose proof (first_pass_nonneg self ranked Hl) as H.
  destruct (first_pass self ranked) as [a r]. cbn [fst] in H.
  destruct (Qltb 0.1 (Qabs r)); [|assumption].
  apply adjust_walk_nonneg; [|assumption].
  apply Forall_forall. intros pwc Hin. rewrite Forall_forall in Hl.
  now apply Hl, in_rev.
Qed.

Lemma final_allocation_keys self ranked :
  Dict.keys (final_allocation self ranked) = Dict.keys (fst (first_pass self ranked)).
Proof.
  unfold final_allocation.
  destruct (first_pass self ranked) as [a r]. cbn [fst].
  destruct (Qltb 0.1 (Qabs r)); [apply adjust_walk_keys | reflexivity].
Qed.

Lemma first_pass_keys_nodup self ranked :
  NoDup (Dict.keys (fst (first_pass self ranked))).
Proof. apply fold_allocate_nodup. constructor. Qed.

Lemma first_pass_keys_names self ranked k :
  In k (Dict.keys (fst (first_pass self ranked)))
  <-> In k (map (fun pwc => name (plant pwc)) ranked).
Proof.
  unfold first_pass. rewrite fold_allocate_keys. cbn. tauto.
Qed.

(** Building the response never fails on an allocation of rounded,
    non-negative values, and copies them. *)
Lemma response_of_allocation a plants :
  all_values (fun v => 0 <= v) a -> all_values rounded a ->
  for_each (response_entry a) plants = Ok (plan_of a plants).
Proof.
  intros Hpos Hrnd. apply for_each_map. intros pl _.
  unfold response_entry, new_PowerPlantOutput.
  assert (H0 : 0 <= Dict.get_default a (name pl) 0)
    by (apply (all_values_default (fun v => 0 <= v)); [assumption | lra]).
  assert (Hr : rounded (Dict.get_default a (name pl) 0))
    by (apply all_values_default; [assumption | apply rounded_zero]).
  unfold rounded in Hr. rewrite !Hr.
  apply Qle_bool_iff in H0. now rewrite H0.
Qed.

Lemma plan_of_total a plants :
  NoDup (Dict.keys a) -> NoDup (map name plants) ->
  (forall k, In k (Dict.keys a) <-> In k (map name plants)) ->
  sum (map p (plan_of a plants)) == sum (Dict.values a).
Proof.
  intros Hk Hn Hiff.
  rewrite (values_by_keys a Hk). unfold plan_of. rewrite map_map. cbn [p].
  rewrite <- (map_map name (fun k => Dict.get_default a k 0)).
  apply sum_perm, Permutation_map, NoDup_Permutation; try assumption.
  intro k. symmetry. apply Hiff.
Qed.

End Plan.

(** C1: on a valid request [calculate_production_plan] either returns the
    plan read off an allocation whose values sum to the load within 0.1, or
    raises the error that carries the required and the achieved total; which
    of the two is decided by that deviation alone, so no allocation off by
    more than 0.1 is ever returned.  With distinct plant names the returned
    outputs themselves sum to the load within 0.1. *)
Theorem calculate_production_plan_all_or_nothing (request : ProductionPlanRequest) :
  valid_ProductionPlanRequest request ->
  exists ranked allocation,
    merit_order (init request) = Ok ranked /\
    allocation_passes (init request) ranked = Ok allocation /\
    ((Qabs (sum (Dict.values allocation) - request_load request) <= 0.1 /\
      _allocate_power (init request) ranked = Ok allocation /\
      calculate_production_plan (init request)
      = Ok (plan_of allocation (request_powerplants request)) /\
      (NoDup (map name (request_powerplants request)) ->
       Qabs (sum (map p (plan_of allocation (request_powerplants request)))
             - request_load request) <= 0.1))
     \/
     (0.1 < Qabs (sum (Dict.values allocation) - request_load request) /\
      calculate_production_plan (init request)
      = Raise (CannotMeetLoad (request_load request) (sum (Dict.values allocation))))).
Proof.
  intro Hv.
  set (self := init request).
  set (ranked := sort (map (costed self) (powerplants self))).
  exists ranked, (final_allocation self ranked).
  split; [apply (merit_order_valid request Hv)|].
  split; [apply allocation_passes_final|].
  assert (Hcalc : calculate_production_plan self
                  = (allocation <- check_total self (final_allocation self ranked) ;;
                     for_each (response_entry allocation) (powerplants self))).
  { rewrite calculate_production_plan_unfold.
    unfold self at 1. rewrite (merit_order_valid request Hv). cbn [bind].
    fold self. fold ranked.
    now rewrite allocate_power_unfold, allocation_passes_final. }
  assert (Hpow : _allocate_power self ranked = check_total self (final_allocation self ranked)).
  { now rewrite allocate_power_unfold, allocation_passes_final. }
  rewrite Hcalc, Hpow. unfold check_total.
  change (load self) with (request_load request).
  change (powerplants self) with (request_powerplants request).
  destruct (Qltb 0.1 (Qabs (sum (Dict.values (final_allocation self ranked))
                            - request_load request))) eqn:E.
  - right. apply Qltb_lt in E. now split.
  - left. apply Qltb_ge in E. cbn [bind].
    split; [assumption|]. split; [reflexivity|].
    split.
    + apply response_of_allocation.
      * apply final_allocation_nonneg, (ranked_nonneg request Hv).
      * apply final_allocation_rounded.
    + intro Hnd. rewrite plan_of_total; [assumption | | assumption |].
      * rewrite final_allocation_keys. apply first_pass_keys_nodup.
      * intro k. rewrite final_allocation_keys, first_pass_keys_names.
        split; apply Permutation_in;
          [apply Permutation_sym|]; apply (ranked_names request).
Qed.

Lemma calculate_production_plan_all_or_nothing_witness :
  valid_ProductionPlanRequest Tests.payload3 /\
  exists ranked allocation,
    merit_order (init Tests.payload3) = Ok ranked /\
    allocation_passes (init Tests.payload3) ranked = Ok allocation /\
    ((Qabs (sum (Dict.values allocation) - request_load Tests.payload3) <= 0.1 /\
      _allocate_power (init Tests.payload3) ranked = Ok allocation /\
      calculate_production_plan (init Tests.payload3)
      = Ok (plan_of allocation (request_powerplants Tests.payload3)) /\
      (NoDup (map name (request_powerplants Tests.payload3)) ->
       Qabs (sum (map p (plan_of allocation (request_powerplants Tests.payload3)))
             - request_load Tests.payload3) <= 0.1))
     \/
     (0.1 < Qabs (sum (Dict.values allocation) - request_load Tests.payload3) /\
      calculate_production_plan (init Tests.payload3)
      = Raise (CannotMeetLoad (request_load Tests.payload3)
                 (sum (Dict.values allocation))))).
Proof.
  split; [solve_valid|].
  apply (calculate_production_plan_all_or_nothing Tests.payload3). solve_valid.
Defined.

(** ** The second pass only adds *)

Section Monotone.

Implicit Types pwc : PowerPlantWithCost.
Implicit Types l : list PowerPlantWithCost.
Implicit Types a : Dict.t.
Implicit Types r : Q.

Lemma get_default_of_get a k v :
  Dict.get a k = Some v -> Dict.get_default a k 0 = v.
Proof. unfold Dict.get_default. now intros ->. Qed.

Lemma adjust_walk_monotone l : forall a r,
  Forall (fun pwc => 0 <= actual_pmax pwc) l ->
  all_values rounded a ->
  forall k, Dict.get_default a k 0 <= Dict.get_default (adjust_walk round1 l a r) k 0.
Proof.
  induction l as [|pwc l IH]; intros a r Hl Ha k; [apply Qle_refl|].
  apply Forall_cons_iff in Hl as [Hp Hl].
  destruct (adjust_walk_cases round1 pwc l a r)
    as [[_ ->] | [(Hr & c & Hc & Hb & ->) | [(Hr & c & Hc & Hz & Hm & ->) | [_ ->]]]].
  - apply Qle_refl.
  - eapply Qle_trans; [|apply IH; [assumption | apply all_values_set;
                                    [assumption | apply round1_rounded]]].
    rewrite get_default_set.
    destruct (String.eqb (name (plant pwc)) k) eqn:E; [|apply Qle_refl].
    apply String.eqb_eq in E. subst k.
    rewrite (get_default_of_get _ _ _ Hc).
    pose proof (Ha _ _ Hc) as Hrc. unfold rounded in Hrc.
    rewrite <- Hrc at 1. apply round1_mono.
    assert (0 <= Qmin (actual_pmax pwc - c) r) by (apply Q.min_glb; lra).
    lra.
  - eapply Qle_trans; [|apply IH; [assumption | apply all_values_set;
                                    [assumption | apply round1_rounded]]].
    rewrite get_default_set.
    destruct (String.eqb (name (plant pwc)) k) eqn:E; [|apply Qle_refl].
    apply String.eqb_eq in E. subst k.
    rewrite (get_default_of_get _ _ _ Hc), Hz.
    apply round1_nonneg, Q.min_glb; lra.
  - now apply IH.
Qed.

(** [_adjust_allocation] never lowers an entry, whatever allocation of
    rounded values it is handed. *)
Lemma adjust_allocation_monotone self l a r :
  Forall (fun pwc => 0 <= actual_pmax pwc) l ->
  all_values rounded a ->
  (forall pwc, In pwc l -> In (name (plant pwc)) (Dict.keys a)) ->
  exists adjusted,
    _adjust_allocation self l a r = Ok adjusted /\
    forall k, Dict.get_default a k 0 <= Dict.get_default adjusted k 0.
Proof.
  intros Hl Ha Hk. eexists. split; [now apply adjust_allocation_walk|].
  apply adjust_walk_monotone; [|assumption].
  apply Forall_forall. intros pwc Hin. rewrite Forall_forall in Hl.
  now apply Hl, in_rev.
Qed.

End Monotone.

(** C7: on a valid request the second pass returns, and no entry of the
    allocation is lower after it than before.  It never frees capacity: on
    the request of the note in [_allocate_power] (load 110, two plants with
    pmin 20 and pmax 100) the first pass gives the first plant 100, every
    dispatch meeting the load must give it less, [90, 20] is one, and the
    calculation fails. *)
Theorem adjustment_pass_never_decreases :
  (forall request ranked,
     valid_ProductionPlanRequest request ->
     merit_order (init request) = Ok ranked ->
     exists adjusted,
       _adjust_allocation (init request) ranked
         (fst (first_pass (init request) ranked)) (snd (first_pass (init request) ranked))
       = Ok adjusted /\
       forall k,
         Dict.get_default (fst (first_pass (init request) ranked)) k 0
         <= Dict.get_default adjusted k 0) /\
  (valid_ProductionPlanRequest Scenarios.todo_example /\
   feasible_dispatch (init Scenarios.todo_example) [90; 20] /\
   (exists ranked,
      merit_order (init Scenarios.todo_example) = Ok ranked /\
      Dict.get_default (fst (first_pass (init Scenarios.todo_example) ranked)) "plant1" 0
      == 100) /\
   (forall v1 v2, feasible_dispatch (init Scenarios.todo_example) [v1; v2] -> v1 < 100) /\
   calculate_production_plan (init Scenarios.todo_example)
   = Raise (CannotMeetLoad 110 100)).
Proof.
  split.
  - intros request ranked Hv Hr.
    rewrite (merit_order_valid request Hv) in Hr. injection Hr as <-.
    apply adjust_allocation_monotone.
    + apply (ranked_nonneg request Hv).
    + apply first_pass_rounded.
    + intro pwc. apply first_pass_keys.
  - split; [solve_valid|].
    split; [|split; [|split]].
    + split.
      * constructor; [right; cbn; lra|].
        constructor; [right; cbn; lra | constructor].
      * reflexivity.
    + eexists. split; vm_compute; reflexivity.
    + intros v1 v2 [Hb Hs].
      inversion Hb as [|pl1 o1 pls os H1 Hb']; subst.
      inversion Hb' as [|pl2 o2 pls' os' H2 _]; subst.
      cbn in H1, H2, Hs.
      assert (Hsum : v1 + v2 == 110).
      { rewrite <- Hs. unfold sum. cbn. ring. }
      destruct H1 as [H1 | H1], H2 as [H2 | H2]; lra.
    + vm_compute. reflexivity.
Qed.

Lemma adjustment_pass_never_decreases_witness :
  valid_ProductionPlanRequest Scenarios.todo_example /\
  exists ranked adjusted,
    merit_order (init Scenarios.todo_example) = Ok ranked /\
    _adjust_allocation (init Scenarios.todo_example) ranked
      (fst (first_pass (init Scenarios.todo_example) ranked))
      (snd (first_pass (init Scenarios.todo_example) ranked))
    = Ok adjusted /\
    forall k,
      Dict.get_default (fst (first_pass (init Scenarios.todo_example) ranked)) k 0
      <= Dict.get_default adjusted k 0.
Proof.
  split; [solve_valid|].
  eexists.
  destruct (proj1 adjustment_pass_never_decreases Scenarios.todo_example _
              ltac:(solve_valid) ltac:(vm_compute; reflexivity))
    as [adjusted H].
  exists adjusted. split; [vm_compute; reflexivity | exact H].
Defined.

(** ** Plants sharing a name *)

Section SharedNames.

Implicit Types pwc : PowerPlantWithCost.
Implicit Types l : list PowerPlantWithCost.
Implicit Types a : Dict.t.
Implicit Types r : Q.

Local Abbreviation pname pwc := (name (plant pwc)).

Lemma fold_allocate_get_other l k : forall a r,
  (forall q, In q l -> pname q <> k) ->
  Dict.get (fst (fold_left allocate_step l (a, r))) k = Dict.get a k.
Proof.
  induction l as [|pwc l IH]; intros a r Hk; [reflexivity|].
  cbn [fold_left].
  destruct (allocate_step_sets a r pwc) as [v Hv].
  destruct (allocate_step (a, r) pwc) as [a1 r1]. cbn [fst] in Hv. subst a1.
  rewrite IH by (intros q Hq; apply Hk; now right).
  apply get_set_other, Hk. now left.
Qed.

Lemma for_each_in {A B : Type} (f : A -> result B) (l : list A) : forall ys y,
  for_each f l = Ok ys -> In y ys -> exists x, In x l /\ f x = Ok y.
Proof.
  induction l as [|x l IH]; intros ys y H Hy; cbn [for_each] in H.
  - injection H as <-. destruct Hy.
  - destruct (f x) as [b|e] eqn:Hb; [|discriminate]. cbn [bind] in H.
    destruct (for_each f l) as [bs|e] eqn:Hbs; [|discriminate]. cbn [bind] in H.
    injection H as <-. destruct Hy as [<- | Hy].
    + exists x. split; [now left | assumption].
    + destruct (IH bs y eq_refl Hy) as (x' & Hin & Hx'). exists x'. split; [now right | assumption].
Qed.

Lemma response_entry_value a pl o :
  response_entry a pl = Ok o ->
  output_name o = name pl /\
  p o = round1 (round1 (Dict.get_default a (name pl) 0)).
Proof.
  unfold response_entry, new_PowerPlantOutput.
  destruct (Qle_bool 0 _); [|discriminate].
  intros [= <-]. now split.
Qed.

Lemma nodup_same_length (l1 l2 : list string) :
  NoDup l1 -> (forall k, In k l1 <-> In k l2) ->
  List.length l1 = List.length (nodup string_dec l2).
Proof.
  intros H1 Hiff. apply Permutation_length, NoDup_Permutation.
  - assumption.
  - apply NoDup_nodup.
  - intro k. rewrite nodup_In. apply Hiff.
Qed.

End SharedNames.

(** C9: the allocation is keyed by name, so plants sharing a name share one
    entry: the keys are the distinct names; after the first pass the entry
    holds what the last plant of that name in merit order was assigned;
    response entries with the same name carry the same output; and the
    total the final check compares with the load has one summand per
    distinct name. *)
Theorem shared_names_share_one_entry
    (self : ProductionPlanCalculator) (ranked : list PowerPlantWithCost) :
  NoDup (Dict.keys (final_allocation self ranked)) /\
  (forall k, In k (Dict.keys (final_allocation self ranked))
             <-> In k (map (fun pwc => name (plant pwc)) ranked)) /\
  (forall l1 pwc l2,
     ranked = l1 ++ pwc :: l2 ->
     (forall q, In q l2 -> name (plant q) <> name (plant pwc)) ->
     Dict.get (fst (first_pass self ranked)) (name (plant pwc))
     = Dict.get
         (fst (allocate_step (fold_left allocate_step l1 (Dict.empty, load self)) pwc))
         (name (plant pwc))) /\
  (forall allocation plants plan o1 o2,
     for_each (response_entry allocation) plants = Ok plan ->
     In o1 plan -> In o2 plan -> output_name o1 = output_name o2 -> p o1 = p o2) /\
  _allocate_power self ranked = check_total self (final_allocation self ranked) /\
  Dict.values (final_allocation self ranked)
  = map (fun k => Dict.get_default (final_allocation self ranked) k 0)
      (Dict.keys (final_allocation self ranked)) /\
  List.length (Dict.values (final_allocation self ranked))
  = List.length (nodup string_dec (map (fun pwc => name (plant pwc)) ranked)).
Proof.
  assert (Hnd : NoDup (Dict.keys (final_allocation self ranked)))
    by (rewrite final_allocation_keys; apply first_pass_keys_nodup).
  assert (Hk : forall k, In k (Dict.keys (final_allocation self ranked))
                         <-> In k (map (fun pwc => name (plant pwc)) ranked))
    by (intro k; rewrite final_allocation_keys; apply first_pass_keys_names).
  split; [assumption|]. split; [assumption|].
  split; [|split; [|split; [|split]]].
  - intros l1 pwc l2 -> Hl2. unfold first_pass.
    rewrite fold_left_app. cbn [fold_left].
    destruct (allocate_step _ pwc) as [a1 r1]. now apply fold_allocate_get_other.
  - intros allocation plants plan o1 o2 Hplan H1 H2 Hname.
    destruct (for_each_in _ _ _ _ Hplan H1) as (pl1 & _ & E1).
    destruct (for_each_in _ _ _ _ Hplan H2) as (pl2 & _ & E2).
    apply response_entry_value in E1 as [N1 V1], E2 as [N2 V2].
    rewrite V1, V2. now rewrite <- N1, <- N2, Hname.
  - now rewrite allocate_power_unfold, allocation_passes_final.
  - now apply values_by_keys.
  - rewrite length_values. now apply nodup_same_length.
Qed.

(** Two plants named "a", load 100: the entry "a" ends at 100, the check
    sees a total of 100, and both response entries read 100. *)
Example same_name_plan :
  calculate_production_plan (init Scenarios.same_name)
  = Ok [mkPowerPlantOutput "a" 100; mkPowerPlantOutput "a" 100] /\
  (exists ranked,
     merit_order (init Scenarios.same_name) = Ok ranked /\
     final_allocation (init Scenarios.same_name) ranked = [("a"%string, 100)]).
Proof.
  split; [vm_compute; reflexivity|].
  eexists. split; vm_compute; reflexivity.
Qed.

(** ** Operating ranges *)

Section Bounds.

Implicit Types pwc : PowerPlantWithCost.
Implicit Types l : list PowerPlantWithCost.
Implicit Types a : Dict.t.
Implicit Types r : Q.

Local Abbreviation pname pwc := (name (plant pwc)).
Local Abbreviation within pwc v :=
  (in_bounds_rounded (pmin (plant pwc)) (actual_pmax pwc) v).

Lemma nodup_names_inj l :
  NoDup (map (fun pwc => pname pwc) l) ->
  forall x y, In x l -> In y l -> pname x = pname y -> x = y.
Proof.
  induction l as [|z l IH]; intros Hnd x y Hx Hy E; [destruct Hx|].
  cbn [map] in Hnd. apply NoDup_cons_iff in Hnd as [Hz Hnd].
  assert (Hout : forall q, In q l -> pname q <> pname z).
  { intros q Hq Eq. apply Hz. rewrite <- Eq. now apply (in_map (fun pwc => pname pwc)). }
  destruct Hx as [<- | Hx], Hy as [<- | Hy].
  - reflexivity.
  - exfalso. now apply (Hout y Hy).
  - exfalso. now apply (Hout x Hx).
  - now apply IH.
Qed.

Lemma in_bounds_rounded_tenths lo hi v :
  is_tenth lo -> is_tenth hi -> in_bounds_rounded lo hi v -> in_bounds lo hi v.
Proof.
  intros Hlo Hhi [Hz | (x & [H1 H2] & E)]; [now left | right].
  apply round1_mono in H1, H2.
  rewrite (round1_tenth lo Hlo) in H1. rewrite (round1_tenth hi Hhi) in H2.
  rewrite E. now split.
Qed.

(** After the first pass, each plant's entry is 0 or the rounding of a
    value within its range. *)
Lemma fold_allocate_within l : forall a r,
  NoDup (map (fun pwc => pname pwc) l) ->
  forall pwc, In pwc l ->
    within pwc (Dict.get_default (fst (fold_left allocate_step l (a, r))) (pname pwc) 0).
Proof.
  induction l as [|x l IH]; intros a r Hnd pwc Hin; [destruct Hin|].
  cbn [map] in Hnd. apply NoDup_cons_iff in Hnd as [Hx Hnd].
  cbn [fold_left]. destruct Hin as [<- | Hin].
  - assert (Hout : forall q, In q l -> pname q <> pname x).
    { intros q Hq Eq. apply Hx. rewrite <- Eq.
      now apply (in_map (fun pwc => pname pwc)). }
    assert (Hstep : within x (Dict.get_default (fst (allocate_step (a, r) x)) (pname x) 0)).
    { destruct (allocate_step_cases a r x)
        as [[_ ->] | [(H1 & H2 & ->) | (_ & _ & ->)]];
        cbn [fst]; rewrite get_default_set, String.eqb_refl.
      - now left.
      - right. exists (Qmin (actual_pmax x) r).
        split; [split; [assumption | apply Q.le_min_l] | reflexivity].
      - now left. }
    destruct (allocate_step (a, r) x) as [a1 r1]. cbn [fst] in Hstep.
    unfold Dict.get_default in *.
    now rewrite (fold_allocate_get_other l (pname x) a1 r1 Hout).
  - destruct (allocate_step (a, r) x) as [a1 r1]. now apply IH.
Qed.

(** The second pass keeps it so for a plant whose range is not empty. *)
Lemma adjust_walk_within pwc l : forall a r,
  (forall q, In q l -> pname q = pname pwc -> q = pwc) ->
  pmin (plant pwc) <= actual_pmax pwc ->
  within pwc (Dict.get_default a (pname pwc) 0) ->
  within pwc (Dict.get_default (adjust_walk round1 l a r) (pname pwc) 0).
Proof.
  induction l as [|x l IH]; intros a r Hinj Hrange Ha; [assumption|].
  assert (Hinj' : forall q, In q l -> pname q = pname pwc -> q = pwc)
    by (intros q Hq; apply Hinj; now right).
  destruct (adjust_walk_cases round1 x l a r)
    as [[_ ->] | [(Hr & c & Hc & Hb & ->) | [(Hr & c & Hc & Hz & Hm & ->) | [_ ->]]]].
  - assumption.
  - apply IH; try assumption. rewrite get_default_set.
    destruct (String.eqb (pname x) (pname pwc)) eqn:E; [|assumption].
    apply String.eqb_eq in E. assert (x = pwc) by (apply Hinj; [now left | assumption]).
    subst x. rewrite (get_default_of_get _ _ _ Hc) in Ha.
    right. exists (c + Qmin (actual_pmax pwc - c) r). split; [|reflexivity].
    destruct Ha as [Ha | (x0 & [Hlo Hhi] & Ex)]; [lra|].
    pose proof (round1_near x0) as Hnear. rewrite <- Ex in Hnear.
    destruct (Q.min_spec_le (actual_pmax pwc - c) r) as [[Hle ->] | [Hle ->]]; lra.
  - apply IH; try assumption. rewrite get_default_set.
    destruct (String.eqb (pname x) (pname pwc)) eqn:E; [|assumption].
    apply String.eqb_eq in E. assert (x = pwc) by (apply Hinj; [now left | assumption]).
    subst x.
    right. exists (Qmin r (actual_pmax pwc)). split; [|reflexivity].
    split; [apply Q.min_glb; assumption | apply Q.le_min_r].
  - now apply IH.
Qed.

End Bounds.

Section ValidRequest.

Variable request : ProductionPlanRequest.
Hypothesis request_valid : valid_ProductionPlanRequest request.

Local Abbreviation self := (init request).
Local Abbreviation ranked := (sort (map (costed self) (powerplants self))).

(** On a valid request the only error left is the one of the final check. *)
Lemma calculate_production_plan_valid :
  calculate_production_plan self
  = (allocation <- check_total self (final_allocation self ranked) ;;
     Ok (plan_of allocation (powerplants self))).
Proof.
  rewrite calculate_production_plan_unfold, (merit_order_valid request request_valid).
  cbn [bind]. rewrite allocate_power_unfold, allocation_passes_final. cbn [bind].
  unfold check_total.
  destruct (Qltb 0.1 _); [reflexivity|]. cbn [bind].
  apply response_of_allocation.
  - apply final_allocation_nonneg, (ranked_nonneg request request_valid).
  - apply final_allocation_rounded.
Qed.

Lemma calculate_production_plan_ok plan :
  calculate_production_plan self = Ok plan ->
  plan = plan_of (final_allocation self ranked) (powerplants self).
Proof.
  rewrite calculate_production_plan_valid. unfold check_total.
  destruct (Qltb 0.1 _); cbn [bind]; [discriminate | now intros [= <-]].
Qed.

Lemma ranked_names_nodup :
  NoDup (map name (powerplants self)) ->
  NoDup (map (fun pwc => name (plant pwc)) ranked).
Proof. apply Permutation_NoDup, (ranked_names request). Qed.

Lemma costed_in_ranked pl : In pl (powerplants self) -> In (costed self pl) ranked.
Proof. intro H. apply (ranked_in request). now exists pl. Qed.

End ValidRequest.

(** C2 (as the calculator does it): on a valid request with distinct plant
    names, each plant's entry after the first pass is 0 or the rounding to
    one decimal of a value within [Pmin, effective max]; for a plant with
    Pmin not above its effective max this still holds after the second
    pass and for the output in a returned plan.  When Pmin and the
    effective max are multiples of 0.1 the output is 0 or within
    [Pmin, effective max] itself. *)
Theorem outputs_within_rounded_bounds (request : ProductionPlanRequest) :
  valid_ProductionPlanRequest request ->
  NoDup (map name (request_powerplants request)) ->
  exists ranked,
    merit_order (init request) = Ok ranked /\
    (forall pwc, In pwc ranked ->
       in_bounds_rounded (pmin (plant pwc)) (actual_pmax pwc)
         (Dict.get_default (fst (first_pass (init request) ranked))
            (name (plant pwc)) 0)) /\
    (forall pwc adjusted, In pwc ranked ->
       pmin (plant pwc) <= actual_pmax pwc ->
       _adjust_allocation (init request) ranked
         (fst (first_pass (init request) ranked)) (snd (first_pass (init request) ranked))
       = Ok adjusted ->
       in_bounds_rounded (pmin (plant pwc)) (actual_pmax pwc)
         (Dict.get_default adjusted (name (plant pwc)) 0)) /\
    (forall plan, calculate_production_plan (init request) = Ok plan ->
       plan = plan_of (final_allocation (init request) ranked) (request_powerplants request) /\
       forall pl, In pl (request_powerplants request) ->
         pmin pl <= get_actual_pmax (init request) pl ->
         in_bounds_rounded (pmin pl) (get_actual_pmax (init request) pl)
           (Dict.get_default (final_allocation (init request) ranked) (name pl) 0) /\
         (is_tenth (pmin pl) -> is_tenth (get_actual_pmax (init request) pl) ->
          in_bounds (pmin pl) (get_actual_pmax (init request) pl)
            (Dict.get_default (final_allocation (init request) ranked) (name pl) 0))).
Proof.
  intros Hv Hnd.
  set (self := init request).
  set (ranked := sort (map (costed self) (powerplants self))).
  pose proof (ranked_names_nodup request Hnd) as Hrn. fold self ranked in Hrn.
  assert (Hfirst : forall pwc, In pwc ranked ->
            in_bounds_rounded (pmin (plant pwc)) (actual_pmax pwc)
              (Dict.get_default (fst (first_pass self ranked)) (name (plant pwc)) 0))
    by (intros pwc Hin; now apply fold_allocate_within).
  assert (Hwalk : forall pwc, In pwc ranked -> pmin (plant pwc) <= actual_pmax pwc ->
            in_bounds_rounded (pmin (plant pwc)) (actual_pmax pwc)
              (Dict.get_default
                 (adjust_walk round1 (rev ranked)
                    (fst (first_pass self ranked)) (snd (first_pass self ranked)))
                 (name (plant pwc)) 0)).
  { intros pwc Hin Hrange. apply adjust_walk_within; [|assumption|now apply Hfirst].
    intros q Hq E. apply (nodup_names_inj ranked Hrn); [now apply in_rev | assumption..]. }
  exists ranked.
  split; [apply (merit_order_valid request Hv)|].
  split; [assumption|]. split.
  - intros pwc adjusted Hin Hrange Hadj.
    rewrite adjust_allocation_walk in Hadj by (intro q; apply first_pass_keys).
    injection Hadj as <-. now apply Hwalk.
  - intros plan Hplan.
    split; [apply (calculate_production_plan_ok request Hv plan Hplan)|].
    intros pl Hin Hrange.
    pose proof (costed_in_ranked request pl Hin) as Hc. fold self ranked in Hc.
    assert (Hfin : in_bounds_rounded (pmin pl) (get_actual_pmax self pl)
                     (Dict.get_default (final_allocation self ranked) (name pl) 0)).
    { unfold final_allocation.
      specialize (Hfirst _ Hc). specialize (Hwalk _ Hc Hrange).
      destruct (first_pass self ranked) as [a r]. cbn [fst snd] in *.
      now destruct (Qltb 0.1 (Qabs r)). }
    split; [assumption|]. intros Hlo Hhi. now apply in_bounds_rounded_tenths.
Qed.

(** C2, as worded, does not hold: a gas-fired plant with pmax 10.06 asked
    for 10.1 is given [round(10.06, 1) = 10.1], above its effective
    maximum, and the plan is returned. *)
Lemma output_rounded_above_effective_max :
  valid_ProductionPlanRequest Scenarios.rounded_above_pmax /\
  calculate_production_plan (init Scenarios.rounded_above_pmax)
  = Ok [mkPowerPlantOutput "gas1" (Qred 10.1)] /\
  get_actual_pmax (init Scenarios.rounded_above_pmax)
    (mkPowerPlant "gas1" GASFIRED 0.53 0 10.06) = 10.06 /\
  ~ in_bounds 0 10.06 (Qred 10.1).
Proof.
  split; [solve_valid|].
  split; [vm_compute; reflexivity|].
  split; [reflexivity|].
  intros [H | [_ H]]; vm_compute in H; [discriminate | now apply H].
Qed.

Lemma outputs_within_rounded_bounds_witness :
  valid_ProductionPlanRequest Tests.payload3 /\
  NoDup (map name (request_powerplants Tests.payload3)) /\
  exists ranked,
    merit_order (init Tests.payload3) = Ok ranked /\
    (forall pwc, In pwc ranked ->
       in_bounds_rounded (pmin (plant pwc)) (actual_pmax pwc)
         (Dict.get_default (fst (first_pass (init Tests.payload3) ranked))
            (name (plant pwc)) 0)) /\
    (forall pwc adjusted, In pwc ranked ->
       pmin (plant pwc) <= actual_pmax pwc ->
       _adjust_allocation (init Tests.payload3) ranked
         (fst (first_pass (init Tests.payload3) ranked))
         (snd (first_pass (init Tests.payload3) ranked))
       = Ok adjusted ->
       in_bounds_rounded (pmin (plant pwc)) (actual_pmax pwc)
         (Dict.get_default adjusted (name (plant pwc)) 0)) /\
    (forall plan, calculate_production_plan (init Tests.payload3) = Ok plan ->
       plan = plan_of (final_allocation (init Tests.payload3) ranked)
                (request_powerplants Tests.payload3) /\
       forall pl, In pl (request_powerplants Tests.payload3) ->
         pmin pl <= get_actual_pmax (init Tests.payload3) pl ->
         in_bounds_rounded (pmin pl) (get_actual_pmax (init Tests.payload3) pl)
           (Dict.get_default (final_allocation (init Tests.payload3) ranked) (name pl) 0) /\
         (is_tenth (pmin pl) -> is_tenth (get_actual_pmax (init Tests.payload3) pl) ->
          in_bounds (pmin pl) (get_actual_pmax (init Tests.payload3) pl)
            (Dict.get_default (final_allocation (init Tests.payload3) ranked) (name pl) 0))).
Proof.
  split; [solve_valid|]. split; [solve_nodup|].
  apply (outputs_within_rounded_bounds Tests.payload3); [solve_valid | solve_nodup].
Defined.

(** A wind turbine whose effective maximum is below its pmin can still be
    started by the second pass, at that effective maximum: 30 for a
    turbine with pmin 50. *)
Example wind_started_below_pmin :
  valid_ProductionPlanRequest Scenarios.becalmed /\
  calculate_production_plan (init Scenarios.becalmed)
  = Ok [mkPowerPlantOutput "windA" 30; mkPowerPlantOutput "windB" 60].
Proof. split; [solve_valid | vm_compute; reflexivity]. Qed.

(** ** Wind first *)

Section Wind.

Implicit Types pwc : PowerPlantWithCost.
Implicit Types l : list PowerPlantWithCost.
Implicit Types a : Dict.t.
Implicit Types r : Q.

Local Abbreviation pname pwc := (name (plant pwc)).

Lemma filter_perm {A : Type} (f : A -> bool) (l1 l2 : list A) :
  Permutation l1 l2 -> Permutation (filter f l1) (filter f l2).
Proof.
  induction 1 as [| x l1 l2 _ IH | x y l | l1 l2 l3 _ IH1 _ IH2]; cbn [filter].
  - apply perm_nil.
  - destruct (f x); [now apply perm_skip | assumption].
  - destruct (f x), (f y); try apply Permutation_refl. apply perm_swap.
  - now apply perm_trans with (filter f l2).
Qed.

Lemma filter_none {A : Type} (f : A -> bool) (l : list A) :
  (forall x, In x l -> f x = false) -> filter f l = [].
Proof.
  induction l as [|x l IH]; intro H; [reflexivity|].
  cbn [filter]. rewrite (H x) by now left.
  apply IH. intros y Hy. apply H. now right.
Qed.

(** In a ranked list where wind is free and everything else costs
    something, the wind turbines come first. *)
Lemma sorted_wind_first l :
  StronglySorted merit_le l ->
  (forall x, In x l -> is_wind_ranked x = true -> cost_per_mwh x == 0) ->
  (forall x, In x l -> is_wind_ranked x = false -> 0 < cost_per_mwh x) ->
  l = filter is_wind_ranked l ++ filter (fun x => negb (is_wind_ranked x)) l.
Proof.
  induction 1 as [|x l Hs IH Hx]; intros Hw Hn; [reflexivity|].
  assert (Hw' : forall y, In y l -> is_wind_ranked y = true -> cost_per_mwh y == 0)
    by (intros y Hy; apply Hw; now right).
  assert (Hn' : forall y, In y l -> is_wind_ranked y = false -> 0 < cost_per_mwh y)
    by (intros y Hy; apply Hn; now right).
  cbn [filter]. destruct (is_wind_ranked x) eqn:E; cbn [negb app].
  - f_equal. now apply IH.
  - assert (Hnone : filter is_wind_ranked l = []).
    { apply filter_none.
      intros y Hy. destruct (is_wind_ranked y) eqn:Ey; [|reflexivity].
      exfalso. rewrite Forall_forall in Hx.
      pose proof (Hx y Hy) as Hle. pose proof (Hw' y Hy Ey) as H0.
      pose proof (Hn x (or_introl eq_refl) E) as Hpos.
      destruct Hle as [Hlt | [Heq _]]; lra. }
    rewrite Hnone. cbn [app]. f_equal.
    rewrite (IH Hw' Hn') at 1. now rewrite Hnone.
Qed.

(** While the wind turbines still to visit fit into the remaining load and
    their effective maxima are multiples of 0.1, each one that can run and
    is larger than the tolerance gets its effective maximum. *)
Lemma fold_allocate_wind l : forall a r,
  NoDup (map (fun pwc => pname pwc) l) ->
  Forall (fun x => 0 <= actual_pmax x /\ is_tenth (actual_pmax x)) l ->
  sum (map actual_pmax l) <= r ->
  forall x, In x l ->
    pmin (plant x) <= actual_pmax x -> 0.1 < actual_pmax x ->
    Dict.get_default (fst (fold_left allocate_step l (a, r))) (pname x) 0
    == actual_pmax x.
Proof.
  induction l as [|y l IH]; intros a r Hnd Hall Hsum x Hin Hp Hbig; [destruct Hin|].
  cbn [map] in Hnd, Hsum. apply NoDup_cons_iff in Hnd as [Hy Hnd].
  apply Forall_cons_iff in Hall as [[Hy0 Hyt] Hall].
  rewrite sum_cons in Hsum.
  assert (Hrest : 0 <= sum (map actual_pmax l)).
  { apply sum_nonneg, Forall_forall. intros v Hv.
    apply in_map_iff in Hv as (q & <- & Hq).
    rewrite Forall_forall in Hall. now apply Hall. }
  assert (Hout : forall q, In q l -> pname q <> pname y).
  { intros q Hq Eq. apply Hy. rewrite <- Eq.
    now apply (in_map (fun pwc => pname pwc)). }
  assert (Hmin : Qmin (actual_pmax y) r == actual_pmax y) by (apply Q.min_l; lra).
  assert (Hround : round1 (Qmin (actual_pmax y) r) == actual_pmax y).
  { rewrite (round1_comp _ _ Hmin). now apply round1_tenth. }
  cbn [fold_left].
  destruct (allocate_step_cases a r y) as [[H1 ->] | [(H1 & H2 & ->) | (H1 & H2 & ->)]].
  - destruct Hin as [<- | Hin]; [lra|]. apply IH; try assumption. lra.
  - destruct Hin as [<- | Hin].
    + unfold Dict.get_default.
      rewrite (fold_allocate_get_other l (pname y) _ _ Hout), get_set_same.
      assumption.
    + apply IH; try assumption. rewrite Hround. lra.
  - destruct Hin as [<- | Hin]; [rewrite Hmin in H2; lra|].
    apply IH; try assumption. lra.
Qed.

(** The second pass leaves a plant at its effective maximum alone. *)
Lemma adjust_walk_keeps_full pwc l : forall a r v,
  (forall q, In q l -> pname q = pname pwc -> q = pwc) ->
  Dict.get a (pname pwc) = Some v ->
  v == actual_pmax pwc -> ~ v == 0 ->
  Dict.get (adjust_walk round1 l a r) (pname pwc) = Some v.
Proof.
  induction l as [|x l IH]; intros a r v Hinj Hget Hfull Hpos; [assumption|].
  assert (Hinj' : forall q, In q l -> pname q = pname pwc -> q = pwc)
    by (intros q Hq; apply Hinj; now right).
  assert (Hx : pname x = pname pwc -> x = pwc) by (apply Hinj; now left).
  destruct (adjust_walk_cases round1 x l a r)
    as [[_ ->] | [(Hr & c & Hc & Hb & ->) | [(Hr & c & Hc & Hz & Hm & ->) | [_ ->]]]].
  - assumption.
  - apply IH; try assumption. rewrite get_set.
    destruct (String.eqb (pname x) (pname pwc)) eqn:E; [|assumption].
    apply String.eqb_eq in E. specialize (Hx E). subst x.
    rewrite Hget in Hc. injection Hc as <-. lra.
  - apply IH; try assumption. rewrite get_set.
    destruct (String.eqb (pname x) (pname pwc)) eqn:E; [|assumption].
    apply String.eqb_eq in E. specialize (Hx E). subst x.
    rewrite Hget in Hc. injection Hc as <-. contradiction.
  - now apply IH.
Qed.

Lemma get_of_get_default a k v :
  In k (Dict.keys a) -> Dict.get_default a k 0 == v ->
  exists v', Dict.get a k = Some v' /\ v' == v.
Proof.
  intros Hin Hv. apply in_keys_get in Hin. unfold Dict.get_default in Hv.
  destruct (Dict.get a k) as [v'|]; [now exists v' | congruence].
Qed.

End Wind.

Section WindRequest.

Variable request : ProductionPlanRequest.
Hypothesis request_valid : valid_ProductionPlanRequest request.
Hypothesis names_distinct : NoDup (map name (request_powerplants request)).

Local Abbreviation self := (init request).
Local Abbreviation ranked := (sort (map (costed self) (powerplants self))).
Local Abbreviation winds := (filter is_wind_ranked ranked).
Local Abbreviation others := (filter (fun x => negb (is_wind_ranked x)) ranked).
Local Abbreviation pname pwc := (name (plant pwc)).

Hypothesis others_cost :
  forall pl, In pl (request_powerplants request) -> is_wind pl = false ->
  forall c, calculate_cost_per_mwh self pl = Ok c -> 0 < c.
Hypothesis winds_tenths :
  forall pl, In pl (request_powerplants request) -> is_wind pl = true ->
  is_tenth (get_actual_pmax self pl).
Hypothesis winds_fit : total_wind_capacity self <= request_load request.

Lemma wind_is_free pwc :
  In pwc ranked -> is_wind_ranked pwc = true -> cost_per_mwh pwc == 0.
Proof.
  intros Hin Hw. apply (ranked_in request) in Hin as (pl & _ & ->).
  unfold is_wind_ranked, is_wind in Hw. cbn in Hw.
  unfold costed, calculate_cost_per_mwh. cbn. now rewrite Hw.
Qed.

Lemma others_cost_ranked pwc :
  In pwc ranked -> is_wind_ranked pwc = false -> 0 < cost_per_mwh pwc.
Proof.
  intros Hin Hw. apply (ranked_in request) in Hin as (pl & Hpl & ->).
  unfold is_wind_ranked in Hw. cbn in Hw.
  pose proof (with_cost_valid request request_valid pl Hpl) as Hc.
  unfold with_cost in Hc.
  destruct (calculate_cost_per_mwh self pl) as [c|e] eqn:E; [|discriminate].
  unfold costed. cbn. rewrite E. now apply (others_cost pl Hpl Hw).
Qed.

Lemma ranked_splits : ranked = winds ++ others.
Proof.
  apply sorted_wind_first.
  - apply sort_sorted.
  - apply wind_is_free.
  - apply others_cost_ranked.
Qed.

Lemma ranked_inj x y : In x ranked -> In y ranked -> pname x = pname y -> x = y.
Proof. apply nodup_names_inj, (ranked_names_nodup request names_distinct). Qed.

Lemma winds_names_nodup : NoDup (map (fun pwc => pname pwc) winds).
Proof.
  pose proof (ranked_names_nodup request names_distinct) as H.
  rewrite ranked_splits, map_app in H. now apply NoDup_app_remove_r in H.
Qed.

Lemma winds_ready :
  Forall (fun x => 0 <= actual_pmax x /\ is_tenth (actual_pmax x)) winds.
Proof.
  apply Forall_forall. intros pwc Hin. apply filter_In in Hin as [Hin Hw].
  apply (ranked_in request) in Hin as (pl & Hpl & ->). cbn. split.
  - now apply (actual_pmax_nonneg request request_valid).
  - now apply winds_tenths.
Qed.

Lemma winds_total : sum (map actual_pmax winds) == total_wind_capacity self.
Proof.
  unfold total_wind_capacity.
  rewrite (sum_perm _ (map actual_pmax (filter is_wind_ranked (map (costed self) (powerplants self))))).
  - rewrite filter_map_swap, map_map. reflexivity.
  - apply Permutation_map, filter_perm, Permutation_sym, (ranked_perm request).
Qed.

Lemma others_not_among_winds pwc k :
  In pwc others -> In k (map (fun pwc => pname pwc) winds) -> pname pwc <> k.
Proof.
  intros Ho Hk E. apply filter_In in Ho as [Ho Hno].
  apply in_map_iff in Hk as (w & Hw & Hin). apply filter_In in Hin as [Hin Hwind].
  assert (pwc = w) by (apply ranked_inj; congruence).
  subst w. rewrite Hwind in Hno. discriminate.
Qed.

Lemma wind_turbine_full pwc :
  In pwc winds -> pmin (plant pwc) <= actual_pmax pwc -> 0.1 < actual_pmax pwc ->
  Dict.get_default (fst (first_pass self winds)) (pname pwc) 0 == actual_pmax pwc /\
  Dict.get_default (final_allocation self ranked) (pname pwc) 0 == actual_pmax pwc.
Proof.
  intros Hin Hrange Hbig.
  assert (Hw : Dict.get_default (fst (first_pass self winds)) (pname pwc) 0
               == actual_pmax pwc).
  { apply fold_allocate_wind; try assumption.
    - apply winds_names_nodup.
    - apply winds_ready.
    - rewrite winds_total. exact winds_fit. }
  split; [assumption|].
  destruct (get_of_get_default _ _ _ (first_pass_keys self winds pwc Hin) Hw)
    as (v & Hget & Hv).
  assert (Hranked : In pwc ranked) by (apply filter_In in Hin; tauto).
  assert (Hfirst : Dict.get (fst (first_pass self ranked)) (pname pwc) = Some v).
  { rewrite ranked_splits at 1. unfold first_pass. rewrite fold_left_app.
    fold (first_pass self winds).
    destruct (first_pass self winds) as [a1 r1] eqn:E1. cbn [fst] in Hget.
    rewrite fold_allocate_get_other; [assumption|].
    intros q Hq. apply others_not_among_winds; [assumption|].
    now apply (in_map (fun pwc => pname pwc)). }
  assert (Hfin : Dict.get (final_allocation self ranked) (pname pwc) = Some v).
  { unfold final_allocation.
    destruct (first_pass self ranked) as [a r]. cbn [fst] in Hfirst.
    destruct (Qltb 0.1 (Qabs r)); [|assumption].
    apply adjust_walk_keeps_full; try assumption.
    - intros q Hq. apply ranked_inj; [now apply in_rev | assumption].
    - intro Hz. lra. }
  now rewrite (get_default_of_get _ _ _ Hfin).
Qed.

Lemma others_untouched pwc :
  In pwc others -> Dict.get (fst (first_pass self winds)) (pname pwc) = None.
Proof.
  intro Ho.
  destruct (Dict.get (fst (first_pass self winds)) (pname pwc)) eqn:E; [|reflexivity].
  exfalso.
  assert (Hk : In (pname pwc) (Dict.keys (fst (first_pass self winds))))
    by (apply in_keys_get; congruence).
  apply first_pass_keys_names in Hk.
  now apply (others_not_among_winds pwc (pname pwc) Ho Hk).
Qed.

End WindRequest.



(** Why the tolerance matters: a turbine of 0.1 facing a load of 0.1 is
    left idle, the load counting as met. *)
Example wind_within_tolerance_left_idle :
  valid_ProductionPlanRequest Scenarios.breeze /\
  total_wind_capacity (init Scenarios.breeze) <= request_load Scenarios.breeze /\
  calculate_production_plan (init Scenarios.breeze)
  = Ok [mkPowerPlantOutput "wind1" 0].
Proof.
  split; [solve_valid|]. split; [vm_compute; discriminate | vm_compute; reflexivity].
Qed.

(** Why multiples of 0.1 matter: of three turbines of 10.06 facing a load
    of 30.18 the first two are given 10.1 each and the third 10. *)
Example wind_rounded_up_crowds_out :
  valid_ProductionPlanRequest Scenarios.gusts /\
  total_wind_capacity (init Scenarios.gusts) <= request_load Scenarios.gusts /\
  calculate_production_plan (init Scenarios.gusts)
  = Ok [mkPowerPlantOutput "wind1" (Qred 10.1);
        mkPowerPlantOutput "wind2" (Qred 10.1);
        mkPowerPlantOutput "wind3" 10].
Proof.
  split; [solve_valid|]. split; [vm_compute; discriminate | vm_compute; reflexivity].
Qed.


(** * Further properties of the calculator *)

(** ** The response *)

Section Response.

Implicit Types self : ProductionPlanCalculator.
Implicit Types a : Dict.t.

Lemma for_each_forall2 {A B : Type} (f : A -> result B) (l : list A) : forall ys,
  for_each f l = Ok ys -> Forall2 (fun x y => f x = Ok y) l ys.
Proof.
  induction l as [|x l IH]; intros ys H; cbn [for_each] in H.
  - injection H as <-. constructor.
  - destruct (f x) as [b|e] eqn:Hb; [|discriminate]. cbn [bind] in H.
    destruct (for_each f l) as [bs|e] eqn:Hbs; [|discriminate]. cbn [bind] in H.
    injection H as <-. constructor; [assumption | now apply IH].
Qed.

Lemma calculate_production_plan_response self plan :
  calculate_production_plan self = Ok plan ->
  exists allocation,
    for_each (response_entry allocation) (powerplants self) = Ok plan.
Proof.
  rewrite calculate_production_plan_unfold.
  destruct (merit_order self) as [ranked|e]; [|discriminate]. cbn [bind].
  destruct (_allocate_power self ranked) as [allocation|e]; [|discriminate].
  cbn [bind]. intro H. now exists allocation.
Qed.

Lemma new_PowerPlantOutput_ok n v o :
  new_PowerPlantOutput n v = Ok o ->
  output_name o = n /\ p o = round1 v /\ 0 <= v.
Proof.
  unfold new_PowerPlantOutput. destruct (Qle_bool 0 v) eqn:E; [|discriminate].
  intros [= <-]. apply Qle_bool_iff in E. now repeat split.
Qed.

Lemma response_names a plants plan :
  for_each (response_entry a) plants = Ok plan ->
  map output_name plan = map name plants.
Proof.
  intro H. apply for_each_forall2 in H.
  induction H as [|pl o pls os Hpo _ IH]; [reflexivity|].
  cbn [map]. f_equal; [|assumption].
  unfold response_entry in Hpo. now apply new_PowerPlantOutput_ok in Hpo.
Qed.

Lemma response_outputs a plants plan :
  for_each (response_entry a) plants = Ok plan ->
  Forall (fun o => 0 <= p o /\ is_tenth (p o) /\ round1 (p o) = p o) plan.
Proof.
  intro H. apply for_each_forall2 in H.
  induction H as [|pl o pls os Hpo _ IH]; constructor; [|assumption].
  unfold response_entry in Hpo.
  apply new_PowerPlantOutput_ok in Hpo as (_ & -> & Hpos).
  split; [now apply round1_nonneg|].
  split; [apply round1_is_tenth | apply round1_rounded].
Qed.

End Response.

(** X1: a returned plan has one entry per plant of the request, in the
    order of the request and under the plant's name. *)
Theorem plan_follows_request_order
    (self : ProductionPlanCalculator) (plan : list PowerPlantOutput) :
  calculate_production_plan self = Ok plan ->
  map output_name plan = map name (powerplants self).
Proof.
  intro H. destruct (calculate_production_plan_response self plan H) as [a Ha].
  now apply response_names with a.
Qed.

Lemma plan_follows_request_order_witness :
  exists plan,
    calculate_production_plan (init Tests.payload3) = Ok plan /\
    map output_name plan = map name (powerplants (init Tests.payload3)).
Proof.
  eexists. split; [vm_compute; reflexivity|].
  apply (plan_follows_request_order (init Tests.payload3)).
  vm_compute. reflexivity.
Defined.

(** X2: every output of a returned plan is non-negative and a multiple of
    0.1, whatever the request. *)
Theorem plan_outputs_are_nonnegative_tenths
    (self : ProductionPlanCalculator) (plan : list PowerPlantOutput) :
  calculate_production_plan self = Ok plan ->
  Forall (fun o => 0 <= p o /\ is_tenth (p o) /\ round1 (p o) = p o) plan.
Proof.
  intro H. destruct (calculate_production_plan_response self plan H) as [a Ha].
  now apply response_outputs with a (powerplants self).
Qed.

Lemma plan_outputs_are_nonnegative_tenths_witness :
  exists plan,
    calculate_production_plan (init Tests.payload3) = Ok plan /\
    Forall (fun o => 0 <= p o /\ is_tenth (p o) /\ round1 (p o) = p o) plan.
Proof.
  eexists. split; [vm_compute; reflexivity|].
  apply (plan_outputs_are_nonnegative_tenths (init Tests.payload3)).
  vm_compute. reflexivity.
Defined.

(** X3: an output that was accepted is accepted again unchanged: the
    rounding validator of [PowerPlantOutput] has nothing left to do. *)
Theorem output_validation_is_idempotent (n : string) (v : Q) (o : PowerPlantOutput) :
  new_PowerPlantOutput n v = Ok o ->
  new_PowerPlantOutput (output_name o) (p o) = Ok o.
Proof.
  intro H. apply new_PowerPlantOutput_ok in H as (Hn & Hp & Hv).
  destruct o as [n' v']. cbn [output_name p] in *. subst n' v'.
  unfold new_PowerPlantOutput.
  pose proof (round1_nonneg v Hv) as H0. apply Qle_bool_iff in H0. rewrite H0.
  pose proof (round1_rounded v) as Hr. unfold rounded in Hr. rewrite Hr.
  reflexivity.
Qed.

Lemma output_validation_is_idempotent_witness :
  new_PowerPlantOutput "gas1" 338.44 = Ok (mkPowerPlantOutput "gas1" (Qred 338.4)) /\
  new_PowerPlantOutput "gas1" (Qred 338.4) = Ok (mkPowerPlantOutput "gas1" (Qred 338.4)).
Proof.
  split; [vm_compute; reflexivity|].
  apply (output_validation_is_idempotent "gas1" 338.44 (mkPowerPlantOutput "gas1" (Qred 338.4))).
  vm_compute. reflexivity.
Defined.

(** A negative output is turned down. *)
Lemma negative_output_rejected :
  new_PowerPlantOutput "gas1" (-0.1) = Raise (ValidationError "p").
Proof. reflexivity. Qed.

(** ** Errors of the cost model *)

Section CostErrors.

Implicit Types self : ProductionPlanCalculator.

Lemma for_each_raise {A B : Type} (f : A -> result B) (l1 : list A) x l2 e :
  (forall y, In y l1 -> exists b, f y = Ok b) ->
  f x = Raise e ->
  for_each f (l1 ++ x :: l2) = Raise e.
Proof.
  induction l1 as [|y l1 IH]; intros Hok Hx; cbn [app for_each].
  - now rewrite Hx.
  - destruct (Hok y (or_introl eq_refl)) as [b ->]. cbn [bind].
    rewrite IH; [reflexivity | | assumption].
    intros z Hz. apply Hok. now right.
Qed.

End CostErrors.

(** X4: the first plant the cost model cannot price decides the outcome:
    its exception is what [calculate_production_plan] raises, whatever the
    load and the plants after it. *)
Theorem first_cost_error_aborts (self : ProductionPlanCalculator)
    (before : list PowerPlant) (pl : PowerPlant) (after : list PowerPlant)
    (e : exception) :
  powerplants self = before ++ pl :: after ->
  (forall q, In q before -> exists cost, calculate_cost_per_mwh self q = Ok cost) ->
  calculate_cost_per_mwh self pl = Raise e ->
  calculate_production_plan self = Raise e.
Proof.
  intros Hl Hbefore Hpl. unfold calculate_production_plan. rewrite Hl.
  rewrite (for_each_raise (with_cost self) before pl after e); [reflexivity | |].
  - intros q Hq. destruct (Hbefore q Hq) as [c Hc].
    unfold with_cost. rewrite Hc. eexists. reflexivity.
  - unfold with_cost. now rewrite Hpl.
Qed.

Lemma first_cost_error_aborts_witness :
  calculate_production_plan (init Cases.unknown_type)
  = Raise (UnknownPowerPlantType "nuclear").
Proof.
  apply (first_cost_error_aborts (init Cases.unknown_type)
           [mkPowerPlant "gas1" GASFIRED 0.53 0 100]
           (mkPowerPlant "reactor" "nuclear" 0.9 0 100)
           [mkPowerPlant "tj1" TURBOJET 0.3 0 100]).
  - reflexivity.
  - intros q [<- | []]. eexists. vm_compute. reflexivity.
  - reflexivity.
Defined.

(** ** Cost and capacity of a plant *)

Section PlantFigures.

Lemma div_antitone (a e1 e2 : Q) :
  0 <= a -> 0 < e1 <= e2 -> 0 <= a / e2 <= a / e1.
Proof.
  intros Ha [H1 H2]. split.
  - apply Qle_shift_div_l; lra.
  - apply Qle_shift_div_r; [lra|].
    assert (E : a == e1 * (a / e1)) by (field; lra).
    rewrite E at 1. rewrite (Qmult_comm (a / e1) e2).
    apply Qmult_le_compat_r; [assumption|].
    apply Qle_shift_div_l; lra.
Qed.

End PlantFigures.

(** X5: with a wind percentage between 0 and 100, a plant's effective
    maximum lies between 0 and its pmax, and is its pmax unless the plant
    is a wind turbine. *)
Theorem effective_max_within_pmax (self : ProductionPlanCalculator) (pl : PowerPlant) :
  0 <= wind_percentage (fuels self) <= 100 ->
  0 < pmax pl ->
  0 <= get_actual_pmax self pl <= pmax pl /\
  (type pl <> WINDTURBINE -> get_actual_pmax self pl = pmax pl).
Proof.
  intros [Hw0 Hw1] Hp. unfold get_actual_pmax.
  destruct (String.eqb (type pl) WINDTURBINE) eqn:E.
  - apply String.eqb_eq in E. split; [|congruence].
    assert (H0 : 0 <= wind_percentage (fuels self) / 100)
      by (apply Qle_shift_div_l; lra).
    assert (H1 : wind_percentage (fuels self) / 100 <= 1)
      by (apply Qle_shift_div_r; lra).
    split.
    + apply Qmult_le_0_compat; lra.
    + rewrite <- (Qmult_1_r (pmax pl)) at 2. apply Qmult_le_l; assumption.
  - split; [lra | reflexivity].
Qed.

Lemma effective_max_within_pmax_witness :
  0 <= get_actual_pmax (init Tests.payload3) (mkPowerPlant "windpark2" WINDTURBINE 1 0 36)
  <= 36.
Proof.
  apply (effective_max_within_pmax (init Tests.payload3)
           (mkPowerPlant "windpark2" WINDTURBINE 1 0 36)).
  - cbn. lra.
  - reflexivity.
Defined.

(** X6: with prices that are not negative, a cost is never negative, and
    of two plants of the same type the more efficient one is not the
    dearer. *)
Theorem more_efficient_is_not_dearer
    (self : ProductionPlanCalculator) (pl1 pl2 : PowerPlant) (c1 c2 : Q) :
  0 <= gas_euro_per_mwh (fuels self) ->
  0 <= kerosine_euro_per_mwh (fuels self) ->
  0 <= co2_euro_per_ton (fuels self) ->
  type pl1 = type pl2 ->
  0 < efficiency pl1 <= efficiency pl2 ->
  calculate_cost_per_mwh self pl1 = Ok c1 ->
  calculate_cost_per_mwh self pl2 = Ok c2 ->
  0 <= c2 <= c1.
Proof.
  intros Hg Hk Hc Ht He. unfold calculate_cost_per_mwh. rewrite Ht.
  assert (He1 : ~ efficiency pl1 == 0) by lra.
  assert (He2 : ~ efficiency pl2 == 0) by lra.
  assert (Hco2 : 0 <= co2_euro_per_ton (fuels self) * CO2_EMISSIONS_PER_MWH)
    by (apply Qmult_le_0_compat; [assumption | discriminate]).
  pose proof (div_antitone _ _ _ Hco2 He) as Hd.
  destruct (String.eqb (type pl2) WINDTURBINE).
  - intros [= <-] [= <-]. lra.
  - destruct (String.eqb (type pl2) GASFIRED).
    + cbn [bind]. rewrite !truediv_nonzero by assumption. cbn [bind].
      intros [= <-] [= <-]. pose proof (div_antitone _ _ _ Hg He). lra.
    + destruct (String.eqb (type pl2) TURBOJET); [|discriminate].
      cbn [bind]. rewrite !truediv_nonzero by assumption. cbn [bind].
      intros [= <-] [= <-]. pose proof (div_antitone _ _ _ Hk He). lra.
Qed.

Lemma more_efficient_is_not_dearer_witness :
  exists c1 c2,
    calculate_cost_per_mwh (init Tests.payload3)
      (mkPowerPlant "gasfiredsomewhatsmaller" GASFIRED 0.37 40 210) = Ok c1 /\
    calculate_cost_per_mwh (init Tests.payload3)
      (mkPowerPlant "gasfiredbig1" GASFIRED 0.53 100 460) = Ok c2 /\
    0 <= c2 <= c1.
Proof.
  do 2 eexists. split; [reflexivity|]. split; [reflexivity|].
  apply (more_efficient_is_not_dearer (init Tests.payload3)
           (mkPowerPlant "gasfiredsomewhatsmaller" GASFIRED 0.37 40 210)
           (mkPowerPlant "gasfiredbig1" GASFIRED 0.53 100 460));
    try reflexivity; cbn; lra.
Defined.

(** ** The second pass at its edges *)

Section SecondPassEdges.

Implicit Types pwc : PowerPlantWithCost.
Implicit Types l : list PowerPlantWithCost.
Implicit Types a : Dict.t.
Implicit Types r : Q.

Lemma adjust_walk_met rnd l a r : r <= 0.1 -> adjust_walk rnd l a r = a.
Proof.
  intro Hr. destruct l as [|pwc l]; [reflexivity|].
  destruct (adjust_walk_cases rnd pwc l a r)
    as [[_ ->] | [(H & _) | [(H & _) | [H _]]]]; [reflexivity | lra..].
Qed.

Lemma adjust_loop_outcome l : forall a r,
  (exists a', adjust_loop l a r = Ok a' /\ Dict.keys a' = Dict.keys a) \/
  (exists pwc, In pwc l /\ ~ In (name (plant pwc)) (Dict.keys a) /\
               adjust_loop l a r = Raise (KeyError (name (plant pwc)))).
Proof.
  induction l as [|pwc l IH]; intros a r.
  - left. now exists a.
  - cbn [adjust_loop].
    destruct (Qle_bool (Qabs r) 0.1); [left; now exists a|].
    unfold Dict.getitem.
    destruct (Dict.get a (name (plant pwc))) as [current|] eqn:Hget.
    + cbn [bind].
      assert (Hin : In (name (plant pwc)) (Dict.keys a))
        by (apply in_keys_get; congruence).
      assert (Hset : forall v a' r',
                (exists a'', adjust_loop l (Dict.set a (name (plant pwc)) v) r' = Ok a'' /\
                             Dict.keys a'' = Dict.keys (Dict.set a (name (plant pwc)) v)) \/
                (exists q, In q l /\
                   ~ In (name (plant q)) (Dict.keys (Dict.set a (name (plant pwc)) v)) /\
                   adjust_loop l (Dict.set a (name (plant pwc)) v) r'
                   = Raise (KeyError (name (plant q)))) ->
                (exists a'', adjust_loop l (Dict.set a (name (plant pwc)) v) r' = Ok a'' /\
                             Dict.keys a'' = Dict.keys a) \/
                (exists q, In q (pwc :: l) /\ ~ In (name (plant q)) (Dict.keys a) /\
                   adjust_loop l (Dict.set a (name (plant pwc)) v) r'
                   = Raise (KeyError (name (plant q))))).
      { intros v _ r'. rewrite (keys_set_present a _ v Hin).
        intros [H | (q & Hq & Hk & Hr)]; [now left | right].
        exists q. split; [now right | now split]. }
      assert (Hsame : forall r',
                (exists a'', adjust_loop l a r' = Ok a'' /\ Dict.keys a'' = Dict.keys a) \/
                (exists q, In q (pwc :: l) /\ ~ In (name (plant q)) (Dict.keys a) /\
                   adjust_loop l a r' = Raise (KeyError (name (plant q))))).
      { intro r'. destruct (IH a r') as [H | (q & Hq & Hk & Hr)]; [now left | right].
        exists q. split; [now right | now split]. }
      destruct (Qltb 0 r); [|apply Hsame].
      destruct (Qltb 0 current && Qltb current (actual_pmax pwc)).
      * apply (Hset _ a), IH.
      * destruct (Qeq_bool current 0 && Qle_bool (pmin (plant pwc)) r);
          [apply (Hset _ a), IH | apply Hsame].
    + cbn [bind]. right. exists pwc. split; [now left|]. split; [|reflexivity].
      intro Hin. apply in_keys_get in Hin. congruence.
Qed.

End SecondPassEdges.

(** X9: with an entry for every plant, [_adjust_allocation] returns the
    allocation it was given whenever the remaining load is at most 0.1; in
    particular it does nothing about a surplus. *)
Theorem adjustment_leaves_surplus_alone (self : ProductionPlanCalculator)
    (plants_with_cost : list PowerPlantWithCost) (allocation : Dict.t)
    (remaining_load : Q) :
  (forall pwc, In pwc plants_with_cost ->
     In (name (plant pwc)) (Dict.keys allocation)) ->
  remaining_load <= 0.1 ->
  _adjust_allocation self plants_with_cost allocation remaining_load = Ok allocation.
Proof.
  intros Hk Hr. rewrite adjust_allocation_walk by assumption.
  now rewrite adjust_walk_met.
Qed.

Lemma adjustment_leaves_surplus_alone_witness :
  _adjust_allocation (init Tests.wind_has_priority)
    [mkPowerPlantWithCost (mkPowerPlant "wind1" WINDTURBINE 1 0 100) 0 50]
    [("wind1"%string, 50)] (-3)
  = Ok [("wind1"%string, 50)].
Proof.
  apply (adjustment_leaves_surplus_alone (init Tests.wind_has_priority)).
  - intros pwc [<- | []]. cbn. now left.
  - cbn. lra.
Defined.

(** X10: [_adjust_allocation] either returns an allocation with the keys
    it was given, in the same order, or raises [KeyError] for a plant that
    has no entry in the allocation. *)
Theorem adjustment_keeps_keys_or_raises_key_error (self : ProductionPlanCalculator)
    (plants_with_cost : list PowerPlantWithCost) (allocation : Dict.t)
    (remaining_load : Q) :
  (exists adjusted,
     _adjust_allocation self plants_with_cost allocation remaining_load = Ok adjusted /\
     Dict.keys adjusted = Dict.keys allocation) \/
  (exists pwc,
     In pwc plants_with_cost /\
     ~ In (name (plant pwc)) (Dict.keys allocation) /\
     _adjust_allocation self plants_with_cost allocation remaining_load
     = Raise (KeyError (name (plant pwc)))).
Proof.
  unfold _adjust_allocation.
  destruct (adjust_loop_outcome (rev plants_with_cost) allocation remaining_load)
    as [H | (pwc & Hin & Hk & Hr)]; [now left | right].
  exists pwc. split; [now apply in_rev | now split].
Qed.

(** A plant without an entry does raise, once the load is unmet. *)
Example adjustment_key_error :
  _adjust_allocation (init Tests.wind_has_priority)
    [mkPowerPlantWithCost (mkPowerPlant "wind1" WINDTURBINE 1 0 100) 0 50]
    Dict.empty 10
  = Raise (KeyError "wind1").
Proof. reflexivity. Qed.

(** ** Bookkeeping of the first pass *)

Section Bookkeeping.

Implicit Types pwc : PowerPlantWithCost.
Implicit Types l : list PowerPlantWithCost.
Implicit Types a : Dict.t.
Implicit Types r : Q.

Local Abbreviation pname pwc := (name (plant pwc)).

Lemma values_set_absent a k v :
  ~ In k (Dict.keys a) -> Dict.values (Dict.set a k v) = Dict.values a ++ [v].
Proof.
  unfold Dict.values, Dict.keys.
  induction a as [|[k' v'] a IH]; cbn; [reflexivity|].
  intro H. destruct (String.eqb k' k) eqn:E; cbn.
  - apply String.eqb_eq in E. tauto.
  - f_equal. apply IH. tauto.
Qed.

Lemma sum_values_set_absent a k v :
  ~ In k (Dict.keys a) ->
  sum (Dict.values (Dict.set a k v)) == sum (Dict.values a) + v.
Proof.
  intro H. rewrite values_set_absent by assumption.
  rewrite sum_app, sum_cons. change (sum []) with 0. ring.
Qed.

(** What leaves the remaining load enters the allocation, as long as no
    name comes twice. *)
Lemma fold_allocate_accounting l : forall a r,
  NoDup (map (fun pwc => pname pwc) l) ->
  (forall q, In q l -> ~ In (pname q) (Dict.keys a)) ->
  snd (fold_left allocate_step l (a, r))
  + sum (Dict.values (fst (fold_left allocate_step l (a, r))))
  == r + sum (Dict.values a).
Proof.
  induction l as [|x l IH]; intros a r Hnd Hnew; [reflexivity|].
  cbn [map] in Hnd. apply NoDup_cons_iff in Hnd as [Hx Hnd].
  assert (Hxa : ~ In (pname x) (Dict.keys a)) by (apply Hnew; now left).
  assert (Hnext : forall v q, In q l ->
            ~ In (pname q) (Dict.keys (Dict.set a (pname x) v))).
  { intros v q Hq Hin. apply in_keys_set in Hin as [E | Hin].
    - apply Hx. rewrite <- E. now apply (in_map (fun pwc => pname pwc)).
    - apply (Hnew q); [now right | assumption]. }
  cbn [fold_left].
  destruct (allocate_step_cases a r x) as [[_ ->] | [(_ & _ & ->) | (_ & _ & ->)]];
    rewrite IH by (try assumption; apply Hnext);
    rewrite sum_values_set_absent by assumption; ring.
Qed.

(** The first pass never takes more than 0.05 too much, and never gives
    load back. *)
Lemma fold_allocate_remaining l : forall a r,
  Forall (fun pwc => 0 <= actual_pmax pwc) l ->
  - (1 # 20) <= r ->
  - (1 # 20) <= snd (fold_left allocate_step l (a, r)) <= r.
Proof.
  induction l as [|x l IH]; intros a r Hl Hr; [cbn; lra|].
  apply Forall_cons_iff in Hl as [Hx Hl].
  cbn [fold_left].
  destruct (allocate_step_cases a r x) as [[_ ->] | [(H1 & H2 & ->) | (_ & _ & ->)]];
    try (now apply IH).
  assert (Hmin : 0 <= Qmin (actual_pmax x) r) by (apply Q.min_glb; lra).
  pose proof (round1_nonneg _ Hmin) as Hv0.
  pose proof (round1_mono _ _ (Q.le_min_r (actual_pmax x) r)) as Hv1.
  pose proof (round1_near r) as Hnear.
  assert (Hr1 : - (1 # 20) <= r - round1 (Qmin (actual_pmax x) r)) by lra.
  pose proof (IH (Dict.set a (pname x) (round1 (Qmin (actual_pmax x) r)))
                 _ Hl Hr1) as H.
  lra.
Qed.

Lemma sum_zeros (l : list Q) : Forall (fun x => x = 0) l -> sum l == 0.
Proof.
  induction 1 as [|x l -> _ IH]; [reflexivity|]. rewrite sum_cons, IH. ring.
Qed.

Lemma fold_allocate_idle l : forall a r,
  r <= 0.1 ->
  all_values (fun v => v = 0) a ->
  snd (fold_left allocate_step l (a, r)) = r /\
  all_values (fun v => v = 0) (fst (fold_left allocate_step l (a, r))).
Proof.
  induction l as [|x l IH]; intros a r Hr Ha; [now split|].
  cbn [fold_left].
  destruct (allocate_step_cases a r x) as [[_ ->] | [(H & _) | (H & _)]]; try lra.
  apply IH; [assumption|]. now apply all_values_set.
Qed.

End Bookkeeping.



(** With a shared name the books no longer balance: of the 100 that two
    plants named "a" take between them only the second 50 is on record. *)
Example shared_name_breaks_accounting :
  first_pass (mkProductionPlanCalculator 100 Scenarios.fuels [])
    [mkPowerPlantWithCost (mkPowerPlant "a" GASFIRED 1 0 50) 1 50;
     mkPowerPlantWithCost (mkPowerPlant "a" GASFIRED 1 0 50) 2 50]
  = ([("a"%string, 50)], 0).
Proof. vm_compute. reflexivity. Qed.

(** X8: on a valid request the first pass leaves a remaining load between
    -0.05 and the load; so the second pass, run when the remaining load is
    off by more than 0.1, is only ever run on a shortfall. *)
Theorem first_pass_never_overshoots (request : ProductionPlanRequest) :
  valid_ProductionPlanRequest request ->
  exists ranked,
    merit_order (init request) = Ok ranked /\
    - (1 # 20) <= snd (first_pass (init request) ranked) <= request_load request /\
    (0.1 < Qabs (snd (first_pass (init request) ranked)) ->
     0.1 < snd (first_pass (init request) ranked)).
Proof.
  intro Hv. eexists. split; [apply (merit_order_valid request Hv)|].
  set (ranked := sort _).
  assert (H : - (1 # 20) <= snd (first_pass (init request) ranked) <= request_load request).
  { apply fold_allocate_remaining; [apply (ranked_nonneg request Hv)|].
    destruct Hv as [Hl _]. cbn. lra. }
  split; [assumption|].
  intro Habs. destruct (Qlt_le_dec 0.1 (snd (first_pass (init request) ranked)))
    as [|Hle]; [assumption|].
  exfalso. apply (Qlt_not_le _ _ Habs). apply Qabs_Qle_condition. lra.
Qed.

Lemma first_pass_never_overshoots_witness :
  valid_ProductionPlanRequest Scenarios.todo_example /\
  exists ranked,
    merit_order (init Scenarios.todo_example) = Ok ranked /\
    - (1 # 20) <= snd (first_pass (init Scenarios.todo_example) ranked)
    <= request_load Scenarios.todo_example /\
    (0.1 < Qabs (snd (first_pass (init Scenarios.todo_example) ranked)) ->
     0.1 < snd (first_pass (init Scenarios.todo_example) ranked)).
Proof.
  split; [solve_valid|].
  apply (first_pass_never_overshoots Scenarios.todo_example). solve_valid.
Defined.

(** ** Loads at the edges *)

Section EdgeLoads.

Implicit Types pwc : PowerPlantWithCost.
Implicit Types l : list PowerPlantWithCost.
Implicit Types a : Dict.t.
Implicit Types r : Q.

Local Abbreviation pname pwc := (name (plant pwc)).
Local Abbreviation capped pwc v := (0 <= v <= round1 (actual_pmax pwc)).

Lemma sum_le_pointwise {A : Type} (f g : A -> Q) (l : list A) :
  (forall x, In x l -> f x <= g x) -> sum (map f l) <= sum (map g l).
Proof.
  induction l as [|x l IH]; intro H; [apply Qle_refl|].
  cbn [map]. rewrite !sum_cons.
  assert (f x <= g x) by (apply H; now left).
  assert (sum (map f l) <= sum (map g l)) by (apply IH; intros y Hy; apply H; now right).
  lra.
Qed.

(** No entry is above the rounded effective maximum of its plant. *)
Lemma fold_allocate_capped l : forall a r,
  NoDup (map (fun pwc => pname pwc) l) ->
  Forall (fun pwc => 0 <= actual_pmax pwc) l ->
  forall pwc, In pwc l ->
    capped pwc (Dict.get_default (fst (fold_left allocate_step l (a, r))) (pname pwc) 0).
Proof.
  induction l as [|x l IH]; intros a r Hnd Hl pwc Hin; [destruct Hin|].
  cbn [map] in Hnd. apply NoDup_cons_iff in Hnd as [Hx Hnd].
  apply Forall_cons_iff in Hl as [Hx0 Hl].
  cbn [fold_left]. destruct Hin as [<- | Hin].
  - assert (Hout : forall q, In q l -> pname q <> pname x).
    { intros q Hq Eq. apply Hx. rewrite <- Eq.
      now apply (in_map (fun pwc => pname pwc)). }
    pose proof (round1_nonneg _ Hx0) as Hcap.
    assert (Hstep : capped x (Dict.get_default (fst (allocate_step (a, r) x)) (pname x) 0)).
    { destruct (allocate_step_cases a r x)
        as [[_ ->] | [(H1 & H2 & ->) | (_ & _ & ->)]];
        cbn [fst]; rewrite get_default_set, String.eqb_refl; try lra.
      split.
      - apply round1_nonneg, Q.min_glb; lra.
      - apply round1_mono, Q.le_min_l. }
    destruct (allocate_step (a, r) x) as [a1 r1]. cbn [fst] in Hstep.
    unfold Dict.get_default in *.
    now rewrite (fold_allocate_get_other l (pname x) a1 r1 Hout).
  - destruct (allocate_step (a, r) x) as [a1 r1]. now apply IH.
Qed.

Lemma adjust_walk_capped pwc l : forall a r,
  (forall q, In q l -> pname q = pname pwc -> q = pwc) ->
  0 <= actual_pmax pwc ->
  capped pwc (Dict.get_default a (pname pwc) 0) ->
  capped pwc (Dict.get_default (adjust_walk round1 l a r) (pname pwc) 0).
Proof.
  induction l as [|x l IH]; intros a r Hinj Hp Ha; [assumption|].
  assert (Hinj' : forall q, In q l -> pname q = pname pwc -> q = pwc)
    by (intros q Hq; apply Hinj; now right).
  destruct (adjust_walk_cases round1 x l a r)
    as [[_ ->] | [(Hr & c & Hc & Hb & ->) | [(Hr & c & Hc & Hz & Hm & ->) | [_ ->]]]].
  - assumption.
  - apply IH; try assumption. rewrite get_default_set.
    destruct (String.eqb (pname x) (pname pwc)) eqn:E; [|assumption].
    apply String.eqb_eq in E. assert (x = pwc) by (apply Hinj; [now left | assumption]).
    subst x. split.
    + apply round1_nonneg.
      assert (0 <= Qmin (actual_pmax pwc - c) r) by (apply Q.min_glb; lra). lra.
    + apply round1_mono.
      pose proof (Q.le_min_l (actual_pmax pwc - c) r). lra.
  - apply IH; try assumption. rewrite get_default_set.
    destruct (String.eqb (pname x) (pname pwc)) eqn:E; [|assumption].
    apply String.eqb_eq in E. assert (x = pwc) by (apply Hinj; [now left | assumption]).
    subst x. split.
    + apply round1_nonneg, Q.min_glb; lra.
    + apply round1_mono, Q.le_min_r.
  - now apply IH.
Qed.

Lemma final_allocation_capped self l pwc :
  NoDup (map (fun pwc => pname pwc) l) ->
  Forall (fun pwc => 0 <= actual_pmax pwc) l ->
  In pwc l ->
  capped pwc (Dict.get_default (final_allocation self l) (pname pwc) 0).
Proof.
  intros Hnd Hl Hin.
  pose proof (fold_allocate_capped l Dict.empty (load self) Hnd Hl pwc Hin) as H.
  fold (first_pass self l) in H. unfold final_allocation.
  destruct (first_pass self l) as [a r]. cbn [fst] in H.
  destruct (Qltb 0.1 (Qabs r)); [|assumption].
  apply adjust_walk_capped; [| |assumption].
  - intros q Hq. apply (nodup_names_inj l Hnd); [now apply in_rev | assumption].
  - rewrite Forall_forall in Hl. now apply Hl.
Qed.

End EdgeLoads.

(** X11: a request whose load does not exceed the 0.1 tolerance is
    answered with every plant at 0. *)
Theorem load_within_tolerance_is_not_served (request : ProductionPlanRequest) :
  valid_ProductionPlanRequest request ->
  request_load request <= 0.1 ->
  calculate_production_plan (init request)
  = Ok (map (fun pl => mkPowerPlantOutput (name pl) 0) (request_powerplants request)).
Proof.
  intros Hv Hload.
  set (self := init request).
  set (ranked := sort (map (costed self) (powerplants self))).
  assert (Hpos : 0 < request_load request) by apply Hv.
  destruct (fold_allocate_idle ranked Dict.empty (load self) Hload
              (all_values_empty _)) as [Hr Ha].
  fold (first_pass self ranked) in Hr, Ha.
  assert (Hfin : final_allocation self ranked = fst (first_pass self ranked)).
  { unfold final_allocation. destruct (first_pass self ranked) as [a r].
    cbn [fst snd] in *. subst r.
    assert (E : Qltb 0.1 (Qabs (load self)) = false).
    { apply Qltb_ge. change (load self) with (request_load request).
      rewrite Qabs_pos; lra. }
    now rewrite E. }
  pose proof (calculate_production_plan_valid request Hv) as Hcalc.
  fold self ranked in Hcalc. rewrite Hcalc, Hfin. unfold check_total.
  assert (Hsum : sum (Dict.values (fst (first_pass self ranked))) == 0).
  { apply sum_zeros. rewrite values_by_keys by apply first_pass_keys_nodup.
    apply Forall_forall. intros v Hin. apply in_map_iff in Hin as (k & <- & _).
    now apply (all_values_default (fun v => v = 0)). }
  assert (E : Qltb 0.1 (Qabs (sum (Dict.values (fst (first_pass self ranked)))
                              - load self)) = false).
  { apply Qltb_ge. change (load self) with (request_load request).
    rewrite Hsum. apply Qabs_Qle_condition. lra. }
  rewrite E. cbn [bind]. f_equal. unfold plan_of. apply map_ext. intro pl.
  f_equal. now apply (all_values_default (fun v => v = 0)).
Qed.

Lemma load_within_tolerance_is_not_served_witness :
  valid_ProductionPlanRequest Scenarios.breeze /\
  calculate_production_plan (init Scenarios.breeze)
  = Ok (map (fun pl => mkPowerPlantOutput (name pl) 0)
          (request_powerplants Scenarios.breeze)).
Proof.
  split; [solve_valid|].
  apply (load_within_tolerance_is_not_served Scenarios.breeze);
    [solve_valid | cbn; lra].
Defined.



(** ** Plants without a minimum output *)

Section NoMinimum.

Implicit Types pwc : PowerPlantWithCost.
Implicit Types l : list PowerPlantWithCost.
Implicit Types a : Dict.t.
Implicit Types r : Q.

Lemma is_tenth_minus (x y : Q) : is_tenth x -> is_tenth y -> is_tenth (x - y).
Proof.
  intros [n Hn] [m Hm]. exists (n + - m)%Z.
  rewrite Hn, Hm, inject_Z_plus, inject_Z_opp. field.
Qed.

Lemma is_tenth_min (x y : Q) : is_tenth x -> is_tenth y -> is_tenth (Qmin x y).
Proof.
  intros Hx Hy. destruct (Q.min_spec_le x y) as [[_ ->] | [_ ->]]; assumption.
Qed.

(** Without minimum outputs and with everything a multiple of 0.1, the
    first pass either gets the remaining load within tolerance or has run
    every plant at its effective maximum. *)
Lemma fold_allocate_no_pmin l : forall a r,
  Forall (fun x => pmin (plant x) == 0 /\ 0 <= actual_pmax x /\
                   is_tenth (actual_pmax x)) l ->
  is_tenth r -> 0 <= r ->
  0 <= snd (fold_left allocate_step l (a, r)) /\
  (snd (fold_left allocate_step l (a, r)) <= 0.1 \/
   snd (fold_left allocate_step l (a, r)) == r - sum (map actual_pmax l)).
Proof.
  induction l as [|x l IH]; intros a r Hl Ht Hr.
  - cbn. split; [assumption|]. right. change (sum []) with 0. ring.
  - apply Forall_cons_iff in Hl as [(Hp & Hx0 & Hxt) Hl].
    assert (Hrest : 0 <= sum (map actual_pmax l)).
    { apply sum_nonneg, Forall_forall. intros v Hv.
      apply in_map_iff in Hv as (q & <- & Hq).
      rewrite Forall_forall in Hl. now apply Hl. }
    cbn [fold_left map]. rewrite sum_cons.
    destruct (allocate_step_cases a r x) as [[H1 ->] | [(H1 & H2 & ->) | (H1 & H2 & ->)]].
    + destruct (IH (Dict.set a (name (plant x)) 0) r Hl Ht Hr) as [H0 [H | H]];
        (split; [assumption | left; lra]).
    + pose proof (is_tenth_min _ _ Hxt Ht) as Hmt.
      pose proof (round1_tenth _ Hmt) as Hround.
      assert (Hmin0 : 0 <= Qmin (actual_pmax x) r) by (apply Q.min_glb; lra).
      pose proof (Q.le_min_r (actual_pmax x) r) as Hminr.
      assert (Ht1 : is_tenth (r - round1 (Qmin (actual_pmax x) r)))
        by (apply is_tenth_minus; [assumption | apply round1_is_tenth]).
      assert (Hr1 : 0 <= r - round1 (Qmin (actual_pmax x) r)) by lra.
      destruct (IH (Dict.set a (name (plant x)) (round1 (Qmin (actual_pmax x) r)))
                   _ Hl Ht1 Hr1) as [H0 [H | H]];
        (split; [assumption|]); [now left|].
      destruct (Q.min_spec_le (actual_pmax x) r) as [[Hle E] | [Hle E]];
        [right | left]; lra.
    + exfalso. assert (0 <= Qmin (actual_pmax x) r) by (apply Q.min_glb; lra). lra.
Qed.

Lemma is_whole_tenth (x : Q) : is_whole x -> is_tenth x.
Proof.
  intros [n Hn]. exists (10 * n)%Z. rewrite Hn, inject_Z_mult.
  change (inject_Z 10) with 10. field.
Qed.

Lemma is_whole_small (x : Q) : is_whole x -> 0 <= x <= 0.1 -> x == 0.
Proof.
  intros [n Hn] [H0 H1]. rewrite Hn in *.
  assert (Hlo : (0 <= n)%Z) by (rewrite Zle_Qle; exact H0).
  assert (Hhi : (n < 1)%Z) by (rewrite Zlt_Qlt; change (inject_Z 1) with 1; lra).
  assert (n = 0%Z) by lia. subst n. reflexivity.
Qed.

(** With whole effective maxima a whole remaining load stays whole. *)
Lemma fold_allocate_whole l : forall a r,
  Forall (fun x => is_whole (actual_pmax x)) l ->
  is_whole r ->
  is_whole (snd (fold_left allocate_step l (a, r))).
Proof.
  induction l as [|x l IH]; intros a r Hl Hr; [assumption|].
  apply Forall_cons_iff in Hl as [Hx Hl].
  cbn [fold_left].
  destruct (allocate_step_cases a r x) as [[_ ->] | [(_ & _ & ->) | (_ & _ & ->)]];
    apply IH; try assumption.
  assert (Hm : is_whole (Qmin (actual_pmax x) r))
    by (destruct (Q.min_spec_le (actual_pmax x) r) as [[_ E] | [_ E]];
        [destruct Hx as [n Hn]; exists n | destruct Hr as [n Hn]; exists n];
        now rewrite E).
  pose proof (round1_tenth _ (is_whole_tenth _ Hm)) as Hround.
  destruct Hr as [n Hn], Hm as [m Hm].
  exists (n + - m)%Z. rewrite inject_Z_plus, inject_Z_opp, Hround, Hm, Hn. ring.
Qed.

End NoMinimum.

Section FirstPassSuffices.

Variable request : ProductionPlanRequest.
Hypothesis request_valid : valid_ProductionPlanRequest request.
Hypothesis names_distinct : NoDup (map name (request_powerplants request)).

Local Abbreviation self := (init request).
Local Abbreviation ranked := (sort (map (costed self) (powerplants self))).

(** When the first pass meets the load within tolerance, its allocation is
    the plan. *)
Lemma first_pass_met_is_plan :
  Qabs (snd (first_pass self ranked)) <= 0.1 ->
  calculate_production_plan self
  = Ok (plan_of (fst (first_pass self ranked)) (powerplants self)).
Proof.
  intro Hmet.
  assert (Hfin : final_allocation self ranked = fst (first_pass self ranked)).
  { unfold final_allocation. destruct (first_pass self ranked) as [a r].
    cbn [fst snd] in *. apply Qltb_ge in Hmet. now rewrite Hmet. }
  rewrite (calculate_production_plan_valid request request_valid), Hfin.
  unfold check_total.
  assert (Hnew : forall q, In q ranked ->
            ~ In (name (plant q)) (Dict.keys Dict.empty)) by (intros q _ []).
  pose proof (fold_allocate_accounting ranked Dict.empty (load self)
                (ranked_names_nodup request names_distinct) Hnew) as Hacc.
  fold (first_pass self ranked) in Hacc.
  change (sum (Dict.values Dict.empty)) with 0 in Hacc.
  assert (E : Qltb 0.1 (Qabs (sum (Dict.values (fst (first_pass self ranked)))
                              - load self)) = false).
  { apply Qltb_ge. apply Qabs_Qle_condition in Hmet. apply Qabs_Qle_condition. lra. }
  now rewrite E.
Qed.

Lemma ranked_capacity :
  sum (map actual_pmax ranked) == total_capacity self.
Proof.
  unfold total_capacity.
  rewrite <- (sum_perm _ _ (Permutation_map actual_pmax (ranked_perm request))).
  now rewrite map_map.
Qed.

End FirstPassSuffices.



(** Why the figures matter here: three plants of pmax 10.04 cannot serve a
    load of 30.12, their whole capacity, because each is held at the
    rounded 10. *)
Example rounding_can_defeat_enough_capacity :
  calculate_production_plan
    (init (mkProductionPlanRequest 30.12 Scenarios.fuels
             [mkPowerPlant "g1" GASFIRED 0.5 0 10.04;
              mkPowerPlant "g2" GASFIRED 0.5 0 10.04;
              mkPowerPlant "g3" GASFIRED 0.5 0 10.04]))
  = Raise (CannotMeetLoad 30.12 30).
Proof. vm_compute. reflexivity. Qed.

(** ** The order in which plants are listed *)

Section ListingOrder.

Implicit Types x y z : PowerPlantWithCost.
Implicit Types l : list PowerPlantWithCost.

Lemma same_rank_trans_l z x y :
  same_rank z x = true -> same_rank z y = true -> same_rank x y = true.
Proof.
  unfold same_rank. intros Hx Hy.
  apply andb_true_iff in Hx as [Hx1 Hx2]. apply andb_true_iff in Hy as [Hy1 Hy2].
  apply Qeq_bool_iff in Hx1, Hx2, Hy1, Hy2.
  apply andb_true_iff. split; apply Qeq_bool_iff; lra.
Qed.

Lemma filter_without_ties z l l' :
  Permutation l l' -> NoDup l ->
  (forall x y, In x l -> In y l -> same_rank x y = true -> x = y) ->
  filter (same_rank z) l = filter (same_rank z) l'.
Proof.
  intros Hp Hnd Hties.
  pose proof (filter_perm (same_rank z) l l' Hp) as Hf.
  pose proof (NoDup_filter (same_rank z) Hnd) as Hfn.
  destruct (filter (same_rank z) l) as [|x [|y t]] eqn:E.
  - apply Permutation_nil in Hf. now rewrite Hf.
  - apply Permutation_length_1_inv in Hf. now rewrite Hf.
  - exfalso.
    assert (Hx : In x (filter (same_rank z) l)) by (rewrite E; now left).
    assert (Hy : In y (filter (same_rank z) l)) by (rewrite E; right; now left).
    apply filter_In in Hx as [Hx Hzx], Hy as [Hy Hzy].
    assert (x = y) by (apply Hties; try assumption; now apply same_rank_trans_l with z).
    subst y. apply NoDup_cons_iff in Hfn as [Hfn _]. apply Hfn. now left.
Qed.

(** Without ties the ranking depends on the plants, not on their order. *)
Lemma sort_without_ties l l' :
  Permutation l l' -> NoDup l ->
  (forall x y, In x l -> In y l -> same_rank x y = true -> x = y) ->
  sort l = sort l'.
Proof.
  intros Hp Hnd Hties. apply stable_sorted_unique.
  - eapply perm_trans; [apply Permutation_sym, sort_perm|].
    eapply perm_trans; [exact Hp | apply sort_perm].
  - apply sort_sorted.
  - apply sort_sorted.
  - intro z. rewrite !sort_stable. now apply filter_without_ties.
Qed.

Lemma costed_same_fuels (self1 self2 : ProductionPlanCalculator) pl :
  fuels self1 = fuels self2 -> costed self1 pl = costed self2 pl.
Proof.
  intro H. unfold costed, calculate_cost_per_mwh, get_actual_pmax. now rewrite H.
Qed.

Lemma final_allocation_same_load (self1 self2 : ProductionPlanCalculator) l :
  load self1 = load self2 -> final_allocation self1 l = final_allocation self2 l.
Proof.
  intro H. unfold final_allocation, first_pass. now rewrite H.
Qed.

Lemma costed_injective (self : ProductionPlanCalculator) (plants : list PowerPlant) :
  NoDup plants -> NoDup (map (costed self) plants).
Proof.
  induction 1 as [|pl l Hout _ IH]; cbn [map]; constructor; [|assumption].
  intro Hin. apply in_map_iff in Hin as (pl' & E & Hin).
  apply (f_equal plant) in E. cbn in E. now subst pl'.
Qed.

End ListingOrder.

(** X14: listing the same plants in another order changes nothing when no
    two of them tie on cost and effective maximum: the plan holds the same
    entries, in the order of the new listing, and a failure stays the same
    failure. *)
Theorem plan_independent_of_listing_order (request1 request2 : ProductionPlanRequest) :
  valid_ProductionPlanRequest request1 ->
  request_load request2 = request_load request1 ->
  request_fuels request2 = request_fuels request1 ->
  Permutation (request_powerplants request1) (request_powerplants request2) ->
  NoDup (request_powerplants request1) ->
  (forall pl pl', In pl (request_powerplants request1) ->
     In pl' (request_powerplants request1) ->
     same_rank (costed (init request1) pl) (costed (init request1) pl') = true ->
     pl = pl') ->
  (forall plan1, calculate_production_plan (init request1) = Ok plan1 ->
     exists plan2,
       calculate_production_plan (init request2) = Ok plan2 /\
       Permutation plan1 plan2 /\
       map output_name plan2 = map name (request_powerplants request2)) /\
  (forall e, calculate_production_plan (init request1) = Raise e ->
     calculate_production_plan (init request2) = Raise e).
Proof.
  intros Hv Hload Hfuels Hperm Hnd Hties.
  assert (Hv2 : valid_ProductionPlanRequest request2).
  { destruct Hv as (H1 & H2 & H3 & H4). rewrite <- Hload, <- Hfuels in *.
    split; [assumption|]. split; [assumption|]. split.
    - now apply (Permutation_Forall Hperm).
    - intro E. rewrite E in Hperm.
      now apply Permutation_sym, Permutation_nil in Hperm. }
  assert (Hranked : sort (map (costed (init request2)) (request_powerplants request2))
                    = sort (map (costed (init request1)) (request_powerplants request1))).
  { rewrite (map_ext (costed (init request2)) (costed (init request1)))
      by (intro pl; now apply costed_same_fuels).
    symmetry. apply sort_without_ties.
    - now apply Permutation_map.
    - now apply costed_injective.
    - intros x y Hx Hy Hxy.
      apply in_map_iff in Hx as (pl & <- & Hpl), Hy as (pl' & <- & Hpl').
      f_equal. now apply Hties. }
  pose proof (calculate_production_plan_valid request1 Hv) as H1.
  pose proof (calculate_production_plan_valid request2 Hv2) as H2.
  change (powerplants (init request2)) with (request_powerplants request2) in H2.
  change (powerplants (init request1)) with (request_powerplants request1) in H1.
  rewrite Hranked in H2.
  rewrite (final_allocation_same_load (init request2) (init request1)) in H2
    by exact Hload.
  unfold check_total in H1, H2.
  change (load (init request2)) with (request_load request2) in H2.
  change (load (init request1)) with (request_load request1) in H1.
  rewrite Hload in H2. rewrite H1, H2.
  destruct (Qltb 0.1 _); cbn [bind]; split.
  - discriminate.
  - now intros e [= <-].
  - intros plan1 [= <-]. eexists. split; [reflexivity|]. split.
    + unfold plan_of. now apply Permutation_map.
    + unfold plan_of. now rewrite map_map.
  - discriminate.
Qed.

Lemma plan_independent_of_listing_order_witness :
  valid_ProductionPlanRequest Cases.no_pmin /\
  Permutation (request_powerplants Cases.no_pmin)
    (request_powerplants Cases.no_pmin_reordered) /\
  exists plan2,
    calculate_production_plan (init Cases.no_pmin_reordered) = Ok plan2 /\
    Permutation
      [mkPowerPlantOutput "tj1" (Qred 10.5); mkPowerPlantOutput "wind1" 60;
       mkPowerPlantOutput "gas1" 100]
      plan2 /\
    map output_name plan2 = map name (request_powerplants Cases.no_pmin_reordered).
Proof.
  assert (Hp : Permutation (request_powerplants Cases.no_pmin)
                 (request_powerplants Cases.no_pmin_reordered)).
  { cbn. eapply perm_trans; [apply perm_skip, perm_swap|]. apply perm_swap. }
  assert (H1 : calculate_production_plan (init Cases.no_pmin)
               = Ok [mkPowerPlantOutput "tj1" (Qred 10.5); mkPowerPlantOutput "wind1" 60;
                     mkPowerPlantOutput "gas1" 100])
    by (vm_compute; reflexivity).
  split; [solve_valid|]. split; [exact Hp|].
  refine (proj1 (plan_independent_of_listing_order
                   Cases.no_pmin Cases.no_pmin_reordered _ eq_refl eq_refl Hp _ _) _ H1).
  - solve_valid.
  - cbn. solve_nodup.
  - intros pl pl' Hin Hin' H. each_plant Hin; each_plant Hin';
      try reflexivity; vm_compute in H; discriminate.
Defined.

(** ** Validation of a request *)

Section Validation.

Lemma is_PowerPlantType_b_spec (t : string) :
  is_PowerPlantType_b t = true <-> is_PowerPlantType t.
Proof.
  unfold is_PowerPlantType_b, is_PowerPlantType.
  rewrite !orb_true_iff, !String.eqb_eq. tauto.
Qed.

Lemma validate_PowerPlant_valid (raw : PowerPlant) :
  valid_PowerPlant raw -> validate_PowerPlant raw = Some raw.
Proof.
  intros (Ht & [He0 He1] & Hpmin & Hpmax & Hle).
  unfold validate_PowerPlant, validate_pmax_greater_than_pmin.
  apply is_PowerPlantType_b_spec in Ht. apply Qltb_lt in He0, Hpmax.
  apply Qle_bool_iff in He1, Hpmin. apply Qltb_ge in Hle.
  rewrite Ht, He0, He1, Hpmin, Hpmax, Hle. cbn. now destruct raw.
Qed.

Lemma validate_PowerPlant_some (raw pl : PowerPlant) :
  validate_PowerPlant raw = Some pl -> pl = raw /\ valid_PowerPlant raw.
Proof.
  unfold validate_PowerPlant, validate_pmax_greater_than_pmin.
  destruct (Qltb 0 (pmax raw)) eqn:Hpmax; [|discriminate].
  destruct (Qle_bool 0 (pmin raw)) eqn:Hpmin.
  - destruct (Qltb (pmax raw) (pmin raw)) eqn:Hle; [discriminate|].
    destruct (is_PowerPlantType_b (type raw)) eqn:Ht; [|discriminate].
    destruct (Qltb 0 (efficiency raw)) eqn:He0; [|discriminate].
    destruct (Qle_bool (efficiency raw) 1) eqn:He1; [|discriminate].
    cbn. intros [= <-]. split; [now destruct raw|].
    apply is_PowerPlantType_b_spec in Ht. apply Qltb_lt in He0, Hpmax.
    apply Qle_bool_iff in He1, Hpmin. apply Qltb_ge in Hle.
    repeat split; assumption.
  - rewrite andb_false_r. discriminate.
Qed.

Lemma validate_each_valid (l : list PowerPlant) :
  Forall valid_PowerPlant l -> validate_each l = Some l.
Proof.
  induction 1 as [|raw l Hraw _ IH]; [reflexivity|].
  cbn [validate_each]. now rewrite (validate_PowerPlant_valid raw Hraw), IH.
Qed.

Lemma validate_each_some (l : list PowerPlant) : forall pls,
  validate_each l = Some pls -> pls = l /\ Forall valid_PowerPlant l.
Proof.
  induction l as [|raw l IH]; intros pls H; cbn [validate_each] in H.
  - injection H as <-. now split.
  - destruct (validate_PowerPlant raw) as [pl|] eqn:Hpl; [|discriminate].
    destruct (validate_each l) as [pls'|]; [|discriminate].
    injection H as <-.
    apply validate_PowerPlant_some in Hpl as [-> Hraw].
    destruct (IH pls' eq_refl) as [-> Hl]. split; [reflexivity | now constructor].
Qed.

Lemma validate_request_valid (raw : ProductionPlanRequest) :
  valid_ProductionPlanRequest raw -> validate_ProductionPlanRequest raw = Some raw.
Proof.
  intros (Hload & [Hw0 Hw1] & Hplants & Hne).
  unfold validate_ProductionPlanRequest, validate_Fuels.
  apply Qltb_lt in Hload. apply Qle_bool_iff in Hw0, Hw1.
  rewrite Hload, Hw0, Hw1, (validate_each_valid _ Hplants). cbn [andb].
  destruct raw as [ld fl pls]. cbn in *.
  destruct pls; [contradiction | reflexivity].
Qed.

Lemma validate_request_some (raw request : ProductionPlanRequest) :
  validate_ProductionPlanRequest raw = Some request ->
  request = raw /\ valid_ProductionPlanRequest raw.
Proof.
  unfold validate_ProductionPlanRequest, validate_Fuels.
  destruct (Qle_bool 0 (wind_percentage (request_fuels raw))) eqn:Hw0; [|discriminate].
  destruct (Qle_bool (wind_percentage (request_fuels raw)) 100) eqn:Hw1; [|discriminate].
  cbn [andb].
  destruct (validate_each (request_powerplants raw)) as [pls|] eqn:Hpls; [|discriminate].
  apply validate_each_some in Hpls as [-> Hplants].
  destruct (request_powerplants raw) as [|pl pls] eqn:E;
    cbn [validate_powerplants_not_empty]; [discriminate|].
  destruct (Qltb 0 (request_load raw)) eqn:Hload; [|discriminate].
  intros [= <-]. split.
  - destruct raw. cbn in *. now subst.
  - apply Qltb_lt in Hload. apply Qle_bool_iff in Hw0, Hw1.
    split; [assumption|]. split; [now split|].
    rewrite E. split; [assumption | discriminate].
Qed.

End Validation.

(** X15: a power plant passes validation exactly when its type is one of
    the three enumeration values, its efficiency is in (0, 1], its pmin is
    not negative, its pmax is positive and its pmax is not below its pmin;
    it then comes out as it went in. *)
Theorem validate_PowerPlant_accepts_valid (raw pl : PowerPlant) :
  validate_PowerPlant raw = Some pl <-> pl = raw /\ valid_PowerPlant raw.
Proof.
  split.
  - apply validate_PowerPlant_some.
  - intros [-> H]. now apply validate_PowerPlant_valid.
Qed.

(** A pmax below pmin is turned down, and so is a negative pmin whatever
    the pmax: the pmax validator then skips its comparison, but the plant
    is not built. *)
Example validate_PowerPlant_rejects :
  validate_PowerPlant (mkPowerPlant "gas1" GASFIRED 0.53 50 40) = None /\
  validate_PowerPlant (mkPowerPlant "gas1" GASFIRED 0.53 (-5) 40) = None /\
  validate_pmax_greater_than_pmin 40 None = Some 40.
Proof. repeat split. Qed.

(** X16: a request passes validation exactly when its load is positive,
    its wind percentage is between 0 and 100, every plant passes, and
    there is at least one plant; it then comes out as it went in. *)
Theorem validate_request_accepts_valid (raw request : ProductionPlanRequest) :
  validate_ProductionPlanRequest raw = Some request
  <-> request = raw /\ valid_ProductionPlanRequest raw.
Proof.
  split.
  - apply validate_request_some.
  - intros [-> H]. now apply validate_request_valid.
Qed.

(** No plants, or one bad plant, and the request is turned down. *)
Example validate_request_rejects :
  validate_ProductionPlanRequest (mkProductionPlanRequest 100 Scenarios.fuels []) = None /\
  validate_ProductionPlanRequest Cases.pmax_below_pmin = None.
Proof. split; reflexivity. Qed.

(** X17: a request that passed validation has only two outcomes at the
    endpoint: a plan with one non-negative multiple of 0.1 per plant, in
    request order, or the load-not-met error carrying the requested load. *)
Theorem productionplan_outcomes (raw request : ProductionPlanRequest) :
  validate_ProductionPlanRequest raw = Some request ->
  (exists plan,
     productionplan request = Ok plan /\
     map output_name plan = map name (request_powerplants request) /\
     Forall (fun o => 0 <= p o /\ is_tenth (p o) /\ round1 (p o) = p o) plan)
  \/
  (exists total,
     productionplan request = Raise (CannotMeetLoad (request_load request) total) /\
     0.1 < Qabs (total - request_load request)).
Proof.
  intro H. apply validate_request_some in H as [-> Hv].
  unfold productionplan.
  destruct (calculate_production_plan (init raw)) as [plan|e] eqn:E.
  - left. exists plan. split; [reflexivity|].
    destruct (calculate_production_plan_response _ _ E) as [a Ha].
    split; [now apply response_names with a | now apply response_outputs with a (powerplants (init raw))].
  - right. rewrite (calculate_production_plan_valid raw Hv) in E.
    unfold check_total in E.
    destruct (Qltb 0.1 _) eqn:G; cbn [bind] in E; [|discriminate].
    injection E as <-. eexists. split; [reflexivity|]. now apply Qltb_lt in G.
Qed.

Lemma productionplan_outcomes_witness :
  validate_ProductionPlanRequest Tests.payload3 = Some Tests.payload3 /\
  ((exists plan,
      productionplan Tests.payload3 = Ok plan /\
      map output_name plan = map name (request_powerplants Tests.payload3) /\
      Forall (fun o => 0 <= p o /\ is_tenth (p o) /\ round1 (p o) = p o) plan)
   \/
   (exists total,
      productionplan Tests.payload3
      = Raise (CannotMeetLoad (request_load Tests.payload3) total) /\
      0.1 < Qabs (total - request_load Tests.payload3))).
Proof.
  split; [vm_compute; reflexivity|].
  apply (productionplan_outcomes Tests.payload3 Tests.payload3).
  vm_compute. reflexivity.
Defined.

(** ** More on ranking and merit order *)

(** X18: the ranking is fixed by what [list.sort] promises: any
    rearrangement of the costed plants that is sorted by cost and then by
    descending effective maximum, and keeps plants equal on both in their
    input order, is the ranking. *)
Theorem ranking_is_the_stable_sort (l l' : list PowerPlantWithCost) :
  Permutation l l' ->
  StronglySorted merit_le l' ->
  (forall z, filter (same_rank z) l' = filter (same_rank z) l) ->
  l' = sort l.
Proof.
  intros Hp Hs Hf. apply stable_sorted_unique.
  - eapply perm_trans; [apply Permutation_sym, Hp | apply sort_perm].
  - assumption.
  - apply sort_sorted.
  - intro z. now rewrite sort_stable.
Qed.

Lemma ranking_is_the_stable_sort_witness :
  [mkPowerPlantWithCost (mkPowerPlant "wind1" WINDTURBINE 1 0 100) 0 50;
   mkPowerPlantWithCost (mkPowerPlant "gas1" GASFIRED 0.5 0 100) 30 100;
   mkPowerPlantWithCost (mkPowerPlant "gas2" GASFIRED 0.5 0 80) 30 80]
  = sort
      [mkPowerPlantWithCost (mkPowerPlant "wind1" WINDTURBINE 1 0 100) 0 50;
       mkPowerPlantWithCost (mkPowerPlant "gas1" GASFIRED 0.5 0 100) 30 100;
       mkPowerPlantWithCost (mkPowerPlant "gas2" GASFIRED 0.5 0 80) 30 80].
Proof.
  apply ranking_is_the_stable_sort.
  - apply Permutation_refl.
  - repeat constructor; unfold merit_le; cbn; lra.
  - reflexivity.
Defined.

Section Prefix.

Implicit Types pwc x y : PowerPlantWithCost.
Implicit Types l : list PowerPlantWithCost.
Implicit Types a : Dict.t.
Implicit Types r : Q.

Local Abbreviation pname pwc := (name (plant pwc)).

(** Once the remaining load is within tolerance, every later plant is
    written down at 0. *)
Lemma fold_allocate_rest_idle l : forall a r k,
  r <= 0.1 ->
  In k (map (fun pwc => pname pwc) l) ->
  Dict.get (fst (fold_left allocate_step l (a, r))) k = Some 0.
Proof.
  induction l as [|x l IH]; intros a r k Hr Hk; [destruct Hk|].
  cbn [fold_left].
  destruct (allocate_step_cases a r x) as [[_ ->] | [(H & _) | (H & _)]]; try lra.
  destruct (in_dec string_dec k (map (fun pwc => pname pwc) l)) as [Hin | Hout].
  - now apply IH.
  - destruct Hk as [<- | Hk]; [|contradiction].
    rewrite fold_allocate_get_other.
    + apply get_set_same.
    + intros q Hq E. apply Hout. rewrite <- E.
      now apply (in_map (fun pwc => pname pwc)).
Qed.

(** A plant without minimum output that is given less than its rounded
    effective maximum leaves nothing for the plants after it. *)
Lemma fold_allocate_prefix x l a r :
  pmin (plant x) == 0 -> 0 <= actual_pmax x ->
  (forall q, In q l -> pname q <> pname x) ->
  ~ Dict.get_default (fst (fold_left allocate_step (x :: l) (a, r))) (pname x) 0
    == round1 (actual_pmax x) ->
  forall y, In y l ->
    Dict.get (fst (fold_left allocate_step (x :: l) (a, r))) (pname y) = Some 0.
Proof.
  intros Hp Hx0 Hout Hless y Hy.
  assert (Hyk : In (pname y) (map (fun pwc => pname pwc) l))
    by now apply (in_map (fun pwc => pname pwc)).
  cbn [fold_left] in *.
  destruct (allocate_step_cases a r x) as [[H1 E] | [(H1 & H2 & E) | (H1 & H2 & E)]];
    rewrite E in *.
  - now apply fold_allocate_rest_idle.
  - apply fold_allocate_rest_idle; [|assumption].
    unfold Dict.get_default in Hless.
    rewrite (fold_allocate_get_other l (pname x) _ _ Hout), get_set_same in Hless.
    destruct (Q.min_spec_le (actual_pmax x) r) as [[Hle Hm] | [Hle Hm]].
    + exfalso. apply Hless. now rewrite (round1_comp _ _ Hm).
    + rewrite (round1_comp _ _ Hm). pose proof (round1_near r). lra.
  - exfalso. assert (0 <= Qmin (actual_pmax x) r) by (apply Q.min_glb; lra). lra.
Qed.

End Prefix.

(** X19: on a valid request with distinct plant names and no minimum
    outputs the first pass follows the merit order strictly: a plant that
    is given less than its rounded effective maximum is the last one given
    anything. *)
Theorem merit_order_is_filled_in_order (request : ProductionPlanRequest) :
  valid_ProductionPlanRequest request ->
  NoDup (map name (request_powerplants request)) ->
  (forall pl, In pl (request_powerplants request) -> pmin pl == 0) ->
  exists ranked,
    merit_order (init request) = Ok ranked /\
    forall before pwc after,
      ranked = before ++ pwc :: after ->
      ~ Dict.get_default (fst (first_pass (init request) ranked)) (name (plant pwc)) 0
        == round1 (actual_pmax pwc) ->
      forall later, In later after ->
        Dict.get_default (fst (first_pass (init request) ranked)) (name (plant later)) 0
        = 0.
Proof.
  intros Hv Hnd Hpmin.
  eexists. split; [apply (merit_order_valid request Hv)|].
  set (ranked := sort _).
  intros before pwc after Hsplit Hless later Hlater.
  pose proof (ranked_names_nodup request Hnd) as Hrn. fold ranked in Hrn.
  assert (Hin : In pwc ranked) by (rewrite Hsplit; apply in_elt).
  pose proof Hin as Hpl. apply (ranked_in request) in Hpl as (pl & Hpl & Epl).
  assert (Hout : forall q, In q after -> name (plant q) <> name (plant pwc)).
  { intros q Hq E. rewrite Hsplit, map_app in Hrn. cbn [map] in Hrn.
    apply NoDup_remove_2 in Hrn. apply Hrn. rewrite <- E.
    apply in_or_app. right. now apply (in_map (fun x => name (plant x))). }
  revert Hless. unfold first_pass. rewrite Hsplit, fold_left_app.
  destruct (fold_left allocate_step before (Dict.empty, load (init request))) as [a1 r1].
  intro Hless. unfold Dict.get_default at 1.
  rewrite (fold_allocate_prefix pwc after a1 r1); try assumption; try reflexivity.
  - subst pwc. cbn. now apply Hpmin.
  - subst pwc. cbn. now apply (actual_pmax_nonneg request Hv).
Qed.

Lemma merit_order_is_filled_in_order_witness :
  valid_ProductionPlanRequest Cases.no_pmin /\
  NoDup (map name (request_powerplants Cases.no_pmin)) /\
  exists ranked,
    merit_order (init Cases.no_pmin) = Ok ranked /\
    forall before pwc after,
      ranked = before ++ pwc :: after ->
      ~ Dict.get_default (fst (first_pass (init Cases.no_pmin) ranked)) (name (plant pwc)) 0
        == round1 (actual_pmax pwc) ->
      forall later, In later after ->
        Dict.get_default (fst (first_pass (init Cases.no_pmin) ranked)) (name (plant later)) 0
        = 0.
Proof.
  split; [solve_valid|]. split; [solve_nodup|].
  apply (merit_order_is_filled_in_order Cases.no_pmin).
  - solve_valid.
  - solve_nodup.
  - intros pl Hin. each_plant Hin; reflexivity.
Defined.

(** X20: what [calculate_cost_per_mwh] does with a plant: it raises the
    unknown-type error exactly for a type outside the enumeration, the
    division error exactly for a gas-fired plant or turbojet of efficiency
    0, and returns a cost otherwise; a wind turbine's efficiency is never
    looked at. *)
Theorem calculate_cost_per_mwh_outcomes (self : ProductionPlanCalculator) (pl : PowerPlant) :
  (calculate_cost_per_mwh self pl = Raise (UnknownPowerPlantType (type pl))
   <-> ~ is_PowerPlantType (type pl)) /\
  (calculate_cost_per_mwh self pl = Raise ZeroDivisionError
   <-> (type pl = GASFIRED \/ type pl = TURBOJET) /\ efficiency pl == 0) /\
  ((exists cost, calculate_cost_per_mwh self pl = Ok cost)
   <-> type pl = WINDTURBINE \/
       ((type pl = GASFIRED \/ type pl = TURBOJET) /\ ~ efficiency pl == 0)).
Proof.
  unfold calculate_cost_per_mwh, is_PowerPlantType.
  destruct (String.eqb (type pl) WINDTURBINE) eqn:Ew.
  { apply String.eqb_eq in Ew. rewrite Ew.
    repeat split; try discriminate; try tauto.
    - intros [[H | H] _]; discriminate.
    - intros _. now exists 0. }
  apply String.eqb_neq in Ew.
  destruct (String.eqb (type pl) GASFIRED) eqn:Eg;
    [apply String.eqb_eq in Eg | apply String.eqb_neq in Eg;
     destruct (String.eqb (type pl) TURBOJET) eqn:Et;
     [apply String.eqb_eq in Et | apply String.eqb_neq in Et]];
    cbn [bind].
  3: { repeat split; try discriminate; try tauto.
       - intros [c H]. discriminate. }
  all: destruct (Qeq_dec (efficiency pl) 0) as [He | He];
    [rewrite !truediv_zero by assumption | rewrite !truediv_nonzero by assumption];
    cbn [bind]; repeat split; try discriminate; try tauto;
    try (intros [c H]; discriminate); try (intros _; eexists; reflexivity);
    try (intros [[H | H] _]; congruence); try (intros [H | [H | H]]; congruence).
Qed.
